(** * The real-time transcription session of [openai_server.py]

    A shallow embedding of the WebSocket handler [realtime_transcription]
    (endpoint [/v1/realtime]) and the properties of its message protocol:
    which events it sends, in which order, and when the streaming
    transcriber is released.

    The handler talks to three collaborators that are not part of the
    server: the Parakeet engine ([stt_model], its streaming transcriber),
    the decoding libraries ([base64], [numpy]) and the WebSocket transport.
    They are parameters of the development; the handler itself is
    translated statement by statement. *)

From Stdlib Require Import List String Ascii Bool ZArith Lia PeanoNat.
Import ListNotations.
Local Open Scope string_scope.
Local Open Scope list_scope.

(** ** Values exchanged on the wire *)

(** What [json.loads] returns and [send_json] takes.  A JSON object is the
    list of the items of the Python dict (a key is looked up from the
    front). *)
#[local] Set Warnings "-register-all".
Inductive json : Type :=
| JNull
| JBool (b : bool)
| JInt (n : Z)
| JFloat (lexeme : string)
| JStr (s : string)
| JArr (items : list json)
| JObj (fields : list (string * json)).

Fixpoint assoc (k : string) (fields : list (string * json)) : option json :=
  match fields with
  | [] => None
  | (k', v) :: rest => if String.eqb k k' then Some v else assoc k rest
  end.

(** The name Python prints for the type of a decoded JSON value. *)
Definition py_type_name (j : json) : string :=
  match j with
  | JNull => "NoneType"
  | JBool _ => "bool"
  | JInt _ => "int"
  | JFloat _ => "float"
  | JStr _ => "str"
  | JArr _ => "list"
  | JObj _ => "dict"
  end.

(** [v == s] for a decoded value [v] and a string literal [s]. *)
Definition py_eq_str (v : json) (s : string) : bool :=
  match v with
  | JStr t => String.eqb t s
  | _ => false
  end.

(** ** [str.strip()]

    A Python [str] is a sequence of code points.  The development holds
    it as a [string], the bytes of its UTF-8 encoding (which is how a
    string literal of this file is read), and [points] reads the
    characters back.  [strip] works on the characters, as Python does,
    and removes every character [c] with [c.isspace()] from both ends. *)

(** The code points of the characters for which [isspace] holds. *)
Definition py_whitespace : list N :=
  [9; 10; 11; 12; 13; 28; 29; 30; 31; 32; 133; 160; 5760;
   8192; 8193; 8194; 8195; 8196; 8197; 8198; 8199; 8200; 8201; 8202;
   8232; 8233; 8239; 8287; 12288]%N.

Definition octet (n : N) : ascii := ascii_of_N n.

(** The UTF-8 encoding of a code point. *)
Definition utf8 (c : N) : list ascii :=
  if (c <? 128)%N then [octet c]
  else if (c <? 2048)%N then [octet (192 + c / 64); octet (128 + c mod 64)]
  else if (c <? 65536)%N then
    [octet (224 + c / 4096); octet (128 + (c / 64) mod 64);
     octet (128 + c mod 64)]
  else
    [octet (240 + c / 262144); octet (128 + (c / 4096) mod 64);
     octet (128 + (c / 64) mod 64); octet (128 + c mod 64)].

(** The code points a [str] holds and UTF-8 encodes: no surrogates. *)
Definition scalar (c : N) : bool :=
  ((c <? 55296) || (57343 <? c) && (c <? 1114112))%N.

(** The code point that one to four bytes would be the encoding of. *)
Definition utf8_value (bs : list ascii) : N :=
  match map N_of_ascii bs with
  | [b1] => b1
  | [b1; b2] => (b1 - 192) * 64 + (b2 - 128)
  | [b1; b2; b3] => (b1 - 224) * 4096 + (b2 - 128) * 64 + (b3 - 128)
  | [b1; b2; b3; b4] =>
      (b1 - 240) * 262144 + (b2 - 128) * 4096 + (b3 - 128) * 64 + (b4 - 128)
  | _ => 0
  end%N.

Fixpoint bytes_eqb (l1 l2 : list ascii) : bool :=
  match l1, l2 with
  | [], [] => true
  | a :: l1', b :: l2' => Ascii.eqb a b && bytes_eqb l1' l2'
  | _, _ => false
  end.

(** [utf8_accept bs] is the code point whose encoding is exactly [bs];
    comparing with the encoding rules out overlong and truncated forms. *)
Definition utf8_accept (bs : list ascii) : option N :=
  let c := utf8_value bs in
  if scalar c && bytes_eqb (utf8 c) bs then Some c else None.

(** A character of a text: a code point, or a byte that belongs to no
    well-formed sequence; such a byte stands for the character of its own
    value. *)
Inductive point : Type :=
| Char (c : N)
| Raw (b : ascii).

(** The first character of a text and the bytes after it. *)
Definition head_point (l : list ascii) : option (point * list ascii) :=
  match l with
  | [] => None
  | b1 :: r1 =>
      match utf8_accept [b1] with
      | Some c => Some (Char c, r1)
      | None =>
          match r1 with
          | b2 :: r2 =>
              match utf8_accept [b1; b2] with
              | Some c => Some (Char c, r2)
              | None =>
                  match r2 with
                  | b3 :: r3 =>
                      match utf8_accept [b1; b2; b3] with
                      | Some c => Some (Char c, r3)
                      | None =>
                          match r3 with
                          | b4 :: r4 =>
                              match utf8_accept [b1; b2; b3; b4] with
                              | Some c => Some (Char c, r4)
                              | None => Some (Raw b1, r1)
                              end
                          | [] => Some (Raw b1, r1)
                          end
                      end
                  | [] => Some (Raw b1, r1)
                  end
              end
          | [] => Some (Raw b1, r1)
          end
      end
  end.

(** The characters of a text; [decode_head_point] below shows that it
    takes [head_point] again and again. *)
Fixpoint decode (l : list ascii) : list point :=
  match l with
  | [] => []
  | b1 :: r1 =>
      match utf8_accept [b1] with
      | Some c => Char c :: decode r1
      | None =>
          match r1 with
          | b2 :: r2 =>
              match utf8_accept [b1; b2] with
              | Some c => Char c :: decode r2
              | None =>
                  match r2 with
                  | b3 :: r3 =>
                      match utf8_accept [b1; b2; b3] with
                      | Some c => Char c :: decode r3
                      | None =>
                          match r3 with
                          | b4 :: r4 =>
                              match utf8_accept [b1; b2; b3; b4] with
                              | Some c => Char c :: decode r4
                              | None => Raw b1 :: decode r1
                              end
                          | [] => Raw b1 :: decode r1
                          end
                      end
                  | [] => Raw b1 :: decode r1
                  end
              end
          | [] => Raw b1 :: decode r1
          end
      end
  end.

Definition encode1 (p : point) : list ascii :=
  match p with
  | Char c => utf8 c
  | Raw b => [b]
  end.

Definition encode (l : list point) : list ascii := flat_map encode1 l.

Definition points (s : string) : list point := decode (list_ascii_of_string s).

(** A list of characters that is the reading of its own encoding. *)
Definition well_formed (l : list point) : Prop := decode (encode l) = l.

(** [c.isspace()] for one character. *)
Definition isspace (p : point) : bool :=
  let c := match p with Char c => c | Raw b => N_of_ascii b end in
  existsb (N.eqb c) py_whitespace.

Fixpoint lstrip (l : list point) : list point :=
  match l with
  | [] => []
  | p :: r => if isspace p then lstrip r else l
  end.

Definition rstrip (l : list point) : list point := rev (lstrip (rev l)).

Definition strip (s : string) : string :=
  string_of_list_ascii (encode (rstrip (lstrip (points s)))).

(** U+00A0, U+2003 and U+0085, which [strip] removes as it removes a
    blank. *)
Definition nbsp : string := String (octet 194) (String (octet 160) "").
Definition em_space : string :=
  String (octet 226) (String (octet 128) (String (octet 131) "")).
Definition next_line : string := String (octet 194) (String (octet 133) "").

(** A text with such characters at both ends and a blank inside. *)
Definition spaced_text : string :=
  (" " ++ nbsp ++ "hi there" ++ em_space ++ next_line)%string.

(** Truth value of a Python string. *)
Definition truthy (s : string) : bool :=
  match s with
  | EmptyString => false
  | String _ _ => true
  end.

(** ** Outbound events, as the dicts the handler passes to [send_json] *)

Definition ready_message : string :=
  "Ready to receive audio. Send audio chunks as base64-encoded WAV data.".

Definition ready_event (sample_rate : Z) : json :=
  JObj [("type", JStr "ready");
        ("sample_rate", JInt sample_rate);
        ("message", JStr ready_message)].

Definition transcription_event (text : string) (final : bool) : json :=
  JObj [("type", JStr "transcription"); ("text", JStr text); ("final", JBool final)].

Definition error_event (message : string) : json :=
  JObj [("type", JStr "error"); ("message", JStr message)].

Definition done_event : json := JObj [("type", JStr "done")].

Definition get (k : string) (ev : json) : option json :=
  match ev with
  | JObj fields => assoc k fields
  | _ => None
  end.

Definition has_type (t : string) (ev : json) : bool :=
  match get "type" ev with
  | Some v => py_eq_str v t
  | None => false
  end.

Definition is_transcription (ev : json) : bool := has_type "transcription" ev.

Definition final_flag (ev : json) : option bool :=
  match get "final" ev with
  | Some (JBool b) => Some b
  | _ => None
  end.

Definition is_final (ev : json) : bool :=
  is_transcription ev && match final_flag ev with Some true => true | _ => false end.

Definition is_partial (ev : json) : bool :=
  is_transcription ev && match final_flag ev with Some false => true | _ => false end.

(** ** Exceptions and the transport *)

(** The exceptions the handler tells apart: [WebSocketDisconnect] (caught
    first by the loop), any other [Exception] (caught by both handlers),
    and [CancelledError], which is not an [Exception] and passes through
    every [except Exception].  Each carries what [str(e)] gives. *)
Inductive exn : Type :=
| WebSocketDisconnect (str : string)
| Exception (str : string)
| CancelledError.

Definition str_exn (e : exn) : string :=
  match e with
  | WebSocketDisconnect s => s
  | Exception s => s
  | CancelledError => ""
  end.

(** One completed [await websocket.receive_text()] together with what
    [json.loads] makes of the frame: the call raises, or it returns a text
    on which [json.loads] raises ([inl], with the error's text) or returns
    a value ([inr]). *)
Inductive inbound : Type :=
| Text (parsed : string + json)
| RecvRaises (e : exn).

(** What a test double that records the calls on its collaborators sees. *)
Inductive action {Samples : Type} : Type :=
| Sent (ev : json)              (* [send_json] returned *)
| Acquired                      (* [transcriber.__enter__()] returned *)
| AddAudio (samples : Samples)  (* [add_audio] was called *)
| Released                      (* [transcriber.__exit__] was called *)
| Closed.                       (* [websocket.close()] was called *)
Arguments action : clear implicits.

(** How a piece of the coroutine ends: with a value, with an exception, or
    suspended for ever in [receive_text] because the client sends nothing
    more and does not hang up. *)
Inductive res (A : Type) : Type :=
| Val (a : A)
| Raise (e : exn)
| Blocked.
Arguments Val {A} a.
Arguments Raise {A} e.
Arguments Blocked {A}.

Inductive ctl : Type := Continue | Break.

(** The context window the handler asks the engine for (line 179). *)
Definition context_size : Z * Z := (256, 256)%Z.

(** ** The collaborators *)

(** The engine ([parakeet_mlx]), the decoders ([base64], [numpy], [mlx])
    and the transport of one connection. *)
Record Env : Type := mkEnv {
  Model : Type;                          (* a loaded [stt_model] *)
  E : Type;                              (* the state of a streaming transcriber *)
  Samples : Type;                        (* an array of float32 samples *)
  Bytes : Type;
  model_sample_rate : Model -> Z;        (* [preprocessor_config.sample_rate] *)
  (* [stt_model.transcribe_stream(context_size, keep_original_attention)]:
     raises ([inl]) or returns a transcriber. *)
  transcribe_stream : Model -> Z * Z -> bool -> string + E;
  (* [__enter__], [add_audio] and [__exit__] update the transcriber and may
     raise ([Some], with the text of the error).  [__enter__] returns the
     transcriber itself: [transcriber] and [transcriber_context] are one
     object. *)
  enter : E -> E * option string;
  add_audio : E -> Samples -> E * option string;
  exit_ : E -> E * option string;
  (* [transcriber_context.result]: [None] when the result is falsy, else
     its [text]. *)
  result : E -> option string;
  (* [base64.b64decode], then [np.frombuffer(_, dtype=np.float32)] with
     [mx.array]. *)
  b64decode : json -> string + Bytes;
  frombuffer : Bytes -> string + Samples;
  (* the outcome of the [n]-th call of [send_json] ([None]: delivered) and
     of [websocket.close()]. *)
  send_result : nat -> option exn;
  close_result : option exn
}.

Section Handler.

Variable W : Env.

(** *** The state of one call of the handler *)
Record state : Type := mkState {
  transcriber : option (E W);        (* the local [transcriber] *)
  sends : nat;                       (* calls of [send_json] so far *)
  log : list (action (Samples W))    (* what the collaborators saw, oldest first *)
}.

Definition initial : state := mkState None 0 [].

Definition M (A : Type) : Type := state -> res A * state.

Definition ret {A} (a : A) : M A := fun s => (Val a, s).

Definition bind {A B} (m : M A) (k : A -> M B) : M B :=
  fun s =>
    match m s with
    | (Val a, s') => k a s'
    | (Raise e, s') => (Raise e, s')
    | (Blocked, s') => (Blocked, s')
    end.

Definition raise {A} (e : exn) : M A := fun s => (Raise e, s).

Definition block {A} : M A := fun s => (Blocked, s).

(** [try: m  except ...: h]: [h e] is the handler of the first clause
    that matches [e], if any. *)
Definition try_except {A} (m : M A) (h : exn -> option (M A)) : M A :=
  fun s =>
    match m s with
    | (Raise e, s') =>
        match h e with
        | Some k => k s'
        | None => (Raise e, s')
        end
    | r => r
    end.

(** [try: m  finally: f]: a suspended coroutine does not reach [f]. *)
Definition try_finally {A} (m : M A) (f : M unit) : M A :=
  fun s =>
    match m s with
    | (Blocked, s') => (Blocked, s')
    | (r, s') =>
        match f s' with
        | (Val _, s'') => (r, s'')
        | (Raise e, s'') => (Raise e, s'')
        | (Blocked, s'') => (Blocked, s'')
        end
    end.

Notation "x <- m ;; k" := (bind m (fun x => k))
  (at level 61, m at next level, right associativity).
Notation "m ;; k" := (bind m (fun _ => k))
  (at level 61, right associativity).

Definition record (a : action (Samples W)) (s : state) : state :=
  mkState (transcriber s) (sends s) (log s ++ [a]).

Definition tell (a : action (Samples W)) : M unit := fun s => (Val tt, record a s).

Definition lift {A} (r : string + A) : M A :=
  match r with
  | inl msg => raise (Exception msg)
  | inr a => ret a
  end.

(** *** The calls the handler makes *)

Definition send_json (ev : json) : M unit :=
  fun s =>
    match send_result W (sends s) with
    | None => (Val tt, mkState (transcriber s) (S (sends s)) (log s ++ [Sent ev]))
    | Some e => (Raise e, mkState (transcriber s) (S (sends s)) (log s))
    end.

Definition websocket_close : M unit :=
  tell Closed ;;
  match close_result W with
  | None => ret tt
  | Some e => raise e
  end.

Definition call_transcribe_stream (model : Model W) : M unit :=
  fun s =>
    match transcribe_stream W model context_size false with
    | inl msg => (Raise (Exception msg), s)
    | inr e => (Val tt, mkState (Some e) (sends s) (log s))
    end.

(** A method call on the transcriber object; the handler only makes one
    once [transcriber] is bound. *)
Definition method (f : E W -> E W * option string) : M unit :=
  fun s =>
    match transcriber s with
    | None => (Raise (Exception "transcriber is not bound"), s)
    | Some e =>
        let (e', r) := f e in
        let s' := mkState (Some e') (sends s) (log s) in
        match r with
        | Some msg => (Raise (Exception msg), s')
        | None => (Val tt, s')
        end
    end.

Definition call_enter : M unit := method (enter W) ;; tell Acquired.
Definition call_add_audio (x : Samples W) : M unit :=
  tell (AddAudio x) ;; method (fun e => add_audio W e x).
Definition call_exit : M unit := tell Released ;; method (exit_ W).

Definition get_result : M (option string) :=
  fun s =>
    match transcriber s with
    | None => (Raise (Exception "transcriber is not bound"), s)
    | Some e => (Val (result W e), s)
    end.

(** [data.get(k)]: [None] for a missing key, [AttributeError] when
    [data] is not a dict. *)
Definition data_get (data : json) (k : string) : M json :=
  match data with
  | JObj fields =>
      ret match assoc k fields with Some v => v | None => JNull end
  | _ =>
      raise (Exception ("'" ++ py_type_name data ++ "' object has no attribute 'get'"))
  end.

(** [data[k]] on a dict: [KeyError] for a missing key. *)
Definition data_item (data : json) (k : string) : M json :=
  match data with
  | JObj fields =>
      match assoc k fields with
      | Some v => ret v
      | None => raise (Exception ("'" ++ k ++ "'"))
      end
  | _ => raise (Exception ("'" ++ py_type_name data ++ "' object is not subscriptable"))
  end.

Definition receive_text (m : inbound) : M (string + json) :=
  match m with
  | Text parsed => ret parsed
  | RecvRaises e => raise e
  end.

(** *** The body of the inner [try] (lines 193-227) *)
Definition body (m : inbound) : M ctl :=
  message <- receive_text m ;;
  data <- lift message ;;
  ty <- data_get data "type" ;;
  if py_eq_str ty "audio" then
    payload <- data_item data "data" ;;
    audio_bytes <- lift (b64decode W payload) ;;
    audio_mx <- lift (frombuffer W audio_bytes) ;;
    call_add_audio audio_mx ;;
    r <- get_result ;;
    match r with
    | Some t =>
        if truthy t then
          let text := strip t in
          if truthy text then
            send_json (transcription_event text false) ;; ret Continue
          else ret Continue
        else ret Continue
    | None => ret Continue
    end
  else if py_eq_str ty "end" then
    r <- get_result ;;
    match r with
    | Some t =>
        if truthy t then
          send_json (transcription_event (strip t) true) ;;
          send_json done_event ;; ret Break
        else send_json done_event ;; ret Break
    | None => send_json done_event ;; ret Break
    end
  else ret Continue.

(** One turn of [while True] with its two [except] clauses
    (lines 192-234). *)
Definition iteration (m : inbound) : M ctl :=
  try_except (body m)
    (fun e =>
       match e with
       | WebSocketDisconnect _ => Some (ret Break)
       | Exception msg => Some (send_json (error_event msg) ;; ret Continue)
       | CancelledError => None
       end).

(** The loop over what the client sends; with nothing left to receive
    the coroutine stays suspended in [receive_text]. *)
Fixpoint loop (inbox : list inbound) : M unit :=
  match inbox with
  | [] => block
  | m :: rest =>
      c <- iteration m ;;
      match c with
      | Continue => loop rest
      | Break => ret tt
      end
  end.

(** [if transcriber: m]; a transcriber object is truthy. *)
Definition if_transcriber (m : M unit) : M unit :=
  fun s =>
    match transcriber s with
    | Some _ => m s
    | None => (Val tt, s)
    end.

(** The [finally] clause (lines 239-248): [__exit__] under
    [except Exception], then [close()] under a bare [except]. *)
Definition teardown : M unit :=
  if_transcriber
    (try_except call_exit
       (fun e =>
          match e with
          | CancelledError => None
          | _ => Some (ret tt)
          end)) ;;
  try_except websocket_close (fun _ => Some (ret tt)).

(** The outer [except Exception as e] clause (lines 236-238). *)
Definition on_exception (e : exn) : option (M unit) :=
  match e with
  | CancelledError => None
  | _ => Some (send_json (error_event (str_exn e)))
  end.

(** The statements of the outer [try] before the loop (lines 178-189). *)
Definition setup (model : Model W) : M unit :=
  call_transcribe_stream model ;;
  call_enter ;;
  send_json (ready_event (model_sample_rate W model)).

(** The handler, after [websocket.accept()]. *)
Definition realtime_transcription (stt_model : option (Model W)) (inbox : list inbound)
  : M unit :=
  match stt_model with
  | None =>
      send_json (error_event "Model not loaded") ;;
      websocket_close ;;
      ret tt
  | Some model =>
      let sample_rate := model_sample_rate W model in
      try_finally
        (try_except
           (call_transcribe_stream model ;;
            call_enter ;;
            send_json (ready_event sample_rate) ;;
            loop inbox)
           on_exception)
        teardown
  end.

(** What is left of the handler for a session suspended in
    [receive_text]: the loop goes on, inside the two enclosing [try]
    statements. *)
Definition resume (inbox : list inbound) : M unit :=
  try_finally (try_except (loop inbox) on_exception) teardown.

Definition session (stt_model : option (Model W)) (inbox : list inbound)
  : res unit * state :=
  realtime_transcription stt_model inbox initial.

End Handler.

Arguments transcriber {W} s.
Arguments sends {W} s.
Arguments log {W} s.

(** The events the client received, in order. *)
Fixpoint events {Samples : Type} (l : list (action Samples)) : list json :=
  match l with
  | [] => []
  | Sent ev :: rest => ev :: events rest
  | _ :: rest => events rest
  end.

(** How often the transcriber was released. *)
Fixpoint releases {Samples : Type} (l : list (action Samples)) : nat :=
  match l with
  | [] => 0
  | Released :: rest => S (releases rest)
  | _ :: rest => releases rest
  end.

(** The chunks handed to [add_audio], in order. *)
Fixpoint ingested {Samples : Type} (l : list (action Samples)) : list Samples :=
  match l with
  | [] => []
  | AddAudio x :: rest => x :: ingested rest
  | _ :: rest => ingested rest
  end.

Definition acquired {Samples : Type} (l : list (action Samples)) : Prop := In Acquired l.

Definition terminated {A : Type} (r : res A) : Prop := r <> Blocked.

(** A transport that delivers every event. *)
Definition reliable (send_result : nat -> option exn) : Prop :=
  forall n, send_result n = None.

(** A connection that has failed stays failed: once a [send_json] has
    raised, whatever it raised, no later one delivers its event. *)
Definition failures_persist (send_result : nat -> option exn) : Prop :=
  forall n, send_result n <> None -> send_result (S n) <> None.

(** The keys of an event. *)
Definition keys (ev : json) : list string :=
  match ev with
  | JObj fields => map fst fields
  | _ => []
  end.

(** Whether the integer [n] occurs anywhere in a value. *)
Fixpoint mentions (n : Z) (j : json) : bool :=
  match j with
  | JInt m => Z.eqb m n
  | JArr items => existsb (mentions n) items
  | JObj fields => existsb (fun kv => mentions n (snd kv)) fields
  | _ => false
  end.

(** An event can only carry a context window whose two sizes occur in it. *)
Definition carries_context_window (cw : Z * Z) (ev : json) : bool :=
  mentions (fst cw) ev && mentions (snd cw) ev.

(** [data] is an audio message whose payload decodes to the samples [x]. *)
Definition audio_chunk (W : Env) (data : json) (x : Samples W) : Prop :=
  get "type" data = Some (JStr "audio") /\
  exists payload bytes,
    get "data" data = Some payload /\
    b64decode W payload = inr bytes /\
    frombuffer W bytes = inr x.

(** ** The start-up code and the plain HTTP endpoints *)

Definition MODEL_PATH : string := "/Users/itsbohara/ai/models/parakeet-tdt-0.6b-v3".

(** Lines 42-48: the model is loaded once; an [Exception] leaves
    [stt_model] at [None]. *)
Definition load_model {Model : Type} (from_pretrained : string -> string + Model)
  : option Model :=
  match from_pretrained MODEL_PATH with
  | inr m => Some m
  | inl _ => None
  end.

(** [GET /health] (lines 67-74). *)
Definition health {Model : Type} (stt_model : option Model) : json :=
  JObj [("status", JStr "healthy");
        ("model_loaded", JBool match stt_model with Some _ => true | None => false end);
        ("model_path", JStr MODEL_PATH)].

(** ** The one-shot endpoint [transcribe_audio] *)

(** What the endpoint returns: a dict (answered with status 200) or a
    [JSONResponse]. *)
Inductive response : Type :=
| Returned (body : json)
| JSONResponse (status_code : Z) (content : json).

(** The calls on the upload, the file system and the engine, as made. *)
Inductive call : Type :=
| FileRead                        (* [file.read()] *)
| NamedTemporaryFile              (* [tempfile.NamedTemporaryFile(...)] *)
| TempWrite (path : string)       (* [temp_file.write(audio_data)] *)
| SfInfo (path : string)          (* [sf.info(temp_path)] *)
| Transcribe (path : string)      (* [stt_model.transcribe(temp_path)] *)
| Unlink (path : string).         (* [os.unlink(temp_path)] *)

(** The collaborators of the endpoint; each call raises ([inl] or [Some],
    with the text of the error) or returns. *)
Record OneShot (Model : Type) : Type := mkOneShot {
  Data : Type;                                   (* the bytes of an upload *)
  Float : Type;                                  (* a Python float *)
  gt_zero : Float -> bool;                       (* [temperature > 0] *)
  named_temporary_file : string + string;        (* the name of the new file *)
  temp_write : string -> Data -> option string;
  sf_info : string -> string + string;           (* [.duration], as a JSON number *)
  transcribe : Model -> string -> string + string;   (* [.text] *)
  os_unlink : string -> option string
}.
Arguments Data {Model} o.
Arguments Float {Model} o.
Arguments gt_zero {Model} o.
Arguments named_temporary_file {Model} o.
Arguments temp_write {Model} o.
Arguments sf_info {Model} o.
Arguments transcribe {Model} o.
Arguments os_unlink {Model} o.

(** An [UploadFile]: its name and what [await file.read()] does. *)
Record UploadFile (D : Type) : Type := mkUpload {
  filename : string;
  read : string + D
}.
Arguments filename {D} u.
Arguments read {D} u.

(** A value of the [options] dict. *)
Inductive optval (F : Type) : Type :=
| OStr (s : string)
| OFloat (t : F)
| OBool (b : bool).
Arguments OStr {F} s.
Arguments OFloat {F} t.
Arguments OBool {F} b.

Fixpoint list_eqb (l1 l2 : list string) : bool :=
  match l1, l2 with
  | [], [] => true
  | a :: l1', b :: l2' => String.eqb a b && list_eqb l1' l2'
  | _, _ => false
  end.

(** [{k: v for k, v in options.items() if v is not None}]. *)
Fixpoint drop_none {V : Type} (items : list (string * option V)) : list (string * V) :=
  match items with
  | [] => []
  | (k, Some v) :: rest => (k, v) :: drop_none rest
  | (_, None) :: rest => drop_none rest
  end.

(** [x or "en"]. *)
Definition or_en (language : option string) : string :=
  match language with
  | Some l => if truthy l then l else "en"
  | None => "en"
  end.

Definition error_body (message type : string) : json :=
  JObj [("error", JObj [("message", JStr message); ("type", JStr type)])].

Section OneShotHandler.

Variable Model : Type.
Variable O : OneShot Model.

(** Calls are recorded, oldest first; an [Exception] ends the [try] body. *)
Definition F (A : Type) : Type := list call -> (string + A) * list call.

Definition fret {A} (a : A) : F A := fun l => (inr a, l).

Definition fbind {A B} (m : F A) (k : A -> F B) : F B :=
  fun l =>
    match m l with
    | (inr a, l') => k a l'
    | (inl e, l') => (inl e, l')
    end.

Definition called {A} (c : call) (r : string + A) : F A := fun l => (r, l ++ [c]).

Definition check (r : option string) : string + unit :=
  match r with
  | Some e => inl e
  | None => inr tt
  end.

Notation "x <- m ;; k" := (fbind m (fun x => k))
  (at level 61, m at next level, right associativity).
Notation "m ;; k" := (fbind m (fun _ => k))
  (at level 61, right associativity).

(** Lines 112-121. *)
Definition options (language : option string) (temperature : Float O)
  (timestamp_granularities : option (list string))
  : list (string * optval (Float O)) :=
  drop_none
    [("language", option_map OStr language);
     ("temperature", if gt_zero O temperature then Some (OFloat temperature) else None);
     ("word_timestamps",
      Some (OBool match timestamp_granularities with
                  | Some (g :: gs) => list_eqb (g :: gs) ["word"]
                  | _ => false
                  end))].

(** The body of the [try] (lines 99-146). *)
Definition transcribe_body (stt_model : Model) (file : UploadFile (Data O))
  (language : option string) (temperature : Float O)
  (timestamp_granularities : option (list string)) : F json :=
  audio_data <- called FileRead (read file) ;;
  temp_path <- called NamedTemporaryFile (named_temporary_file O) ;;
  called (TempWrite temp_path) (check (temp_write O temp_path audio_data)) ;;
  let options := options language temperature timestamp_granularities in
  duration <- called (SfInfo temp_path) (sf_info O temp_path) ;;
  text <- called (Transcribe temp_path) (transcribe O stt_model temp_path) ;;
  let result := strip text in
  called (Unlink temp_path) (check (os_unlink O temp_path)) ;;
  fret (JObj [("text", JStr result);
              ("task", JStr "transcribe");
              ("language", JStr (or_en language));
              ("duration", JFloat duration)]).

(** [POST /v1/audio/transcriptions] (lines 77-153): the answer and the
    calls made.  The errors of the collaborators are [Exception]s, which
    the [except] clause turns into an answer; logging is left out. *)
Definition transcribe_audio (stt_model : option Model) (file : UploadFile (Data O))
  (model : string) (language : option string) (response_format : string)
  (temperature : Float O) (timestamp_granularities : option (list string))
  : response * list call :=
  match stt_model with
  | None => (JSONResponse 500 (error_body "Model not loaded" "server_error"), [])
  | Some m =>
      match transcribe_body m file language temperature timestamp_granularities [] with
      | (inr body, l) => (Returned body, l)
      | (inl e, l) => (JSONResponse 500 (error_body e "transcription_error"), l)
      end
  end.

End OneShotHandler.

Arguments transcribe_audio {Model} O stt_model file model language response_format
  temperature timestamp_granularities.

(** ** More about traces *)

(** How often the socket was closed. *)
Fixpoint closes {Samples : Type} (l : list (action Samples)) : nat :=
  match l with
  | [] => 0
  | Closed :: rest => S (closes rest)
  | _ :: rest => closes rest
  end.

(** Nothing has been released or closed. *)
Definition untouched {W : Env} (s : state W) : Prop :=
  releases (log s) = 0 /\ closes (log s) = 0.

(** The session is live: the transcriber is bound and entered, and
    nothing has been released or closed. *)
Definition live {W : Env} (s : state W) : Prop :=
  transcriber s <> None /\ acquired (log s) /\ untouched s.

Definition nodone (evs : list json) : Prop :=
  Forall (fun ev => ev <> done_event) evs.

(** The samples an inbound message brings to the engine: those of an audio
    message whose payload decodes, none otherwise. *)
Definition chunk_of (W : Env) (m : inbound) : list (Samples W) :=
  match m with
  | Text (inr (JObj fields)) =>
      match assoc "type" fields, assoc "data" fields with
      | Some ty, Some payload =>
          if py_eq_str ty "audio" then
            match b64decode W payload with
            | inr bytes =>
                match frombuffer W bytes with
                | inr x => [x]
                | inl _ => []
                end
            | inl _ => []
            end
          else []
      | _, _ => []
      end
  | _ => []
  end.

(** The events the loop sends. *)
Inductive loop_event : json -> Prop :=
| ev_partial t :
    truthy (strip t) = true -> loop_event (transcription_event (strip t) false)
| ev_final t : loop_event (transcription_event (strip t) true)
| ev_error msg : loop_event (error_event msg)
| ev_done : loop_event done_event.

(** The events the handler sends for a model with sample rate [sr]. *)
Definition handler_event (sr : Z) (ev : json) : Prop :=
  ev = ready_event sr \/ loop_event ev.

(** A frame the handler cannot read, and the text of the error: the call
    of [receive_text] raises, or the text is no JSON, or it is JSON but no
    object. *)
Inductive unreadable : inbound -> string -> Prop :=
| unreadable_receive msg : unreadable (RecvRaises (Exception msg)) msg
| unreadable_json msg : unreadable (Text (inl msg)) msg
| unreadable_value data :
    (forall fields, data <> JObj fields) ->
    unreadable (Text (inr data))
      ("'" ++ py_type_name data ++ "' object has no attribute 'get'").

(** A message after which the loop is left: [end], or the call of
    [receive_text] raising a disconnect or a cancellation. *)
Definition leaves_loop (m : inbound) : Prop :=
  (exists data, m = Text (inr data) /\ get "type" data = Some (JStr "end")) \/
  (exists code, m = RecvRaises (WebSocketDisconnect code)) \/
  m = RecvRaises CancelledError.

(** ** Predicates used in the proofs *)

Section Predicates.

Variable W : Env.

Implicit Types (s : state W).

(** [m] keeps the invariant [P]. *)
Definition preserves (P : state W -> Prop) {A} (m : M W A) : Prop :=
  forall s, P s -> P (snd (m s)).

(** Predicates on the state that no call made inside the loop breaks. *)
Record stable (P : state W -> Prop) : Prop := {
  stable_sent : forall s ev,
    P s -> P (mkState W (transcriber s) (S (sends s)) (log s ++ [Sent ev]));
  stable_unsent : forall s,
    P s -> P (mkState W (transcriber s) (S (sends s)) (log s));
  stable_audio : forall s x, P s -> P (record W (AddAudio x) s);
  stable_method : forall s e e',
    transcriber s = Some e -> P s -> P (mkState W (Some e') (sends s) (log s))
}.

(** Only [receive_text] suspends the coroutine. *)
Definition never_blocks {A} (m : M W A) : Prop :=
  forall s, fst (m s) <> Blocked.

Definition bound s : Prop := transcriber s <> None.

Definition unreleased s : Prop :=
  releases (log s) = 0 /\ (acquired (log s) -> transcriber s <> None).

Definition extends (l0 : list (action (Samples W))) s : Prop :=
  exists ext, log s = l0 ++ ext.

Definition nofinal (evs : list json) : Prop :=
  Forall (fun ev => is_final ev = false) evs.

(** The events of a session that has sent its final event. *)
Definition closing (evs : list json) : Prop :=
  exists pre t tail,
    evs = pre ++ transcription_event t true :: tail /\
    nofinal pre /\
    (tail = [] \/ tail = [done_event]).

(** The last [send_json] of the session raised. *)
Definition last_send_failed s : Prop :=
  exists k, sends s = S k /\ send_result W k <> None.

End Predicates.

Arguments preserves {W} P {A} m.
Arguments stable {W} P.
Arguments never_blocks {W A} m.
Arguments extends {W} l0 s.
Arguments last_send_failed {W} s.

(** ** Test doubles *)

Module Double.

(** A scripted engine: the model is the script, one entry per chunk,
    giving the text the transcriber shows after the chunk ([inr]) or the
    error [add_audio] raises on it ([inl]). *)
Definition Model : Type := list (string + string).

Record E : Type := mkE { script : list (string + string); text : string }.

Definition Samples : Type := list N.   (* float32 bit patterns *)
Definition Bytes : Type := list N.

Definition model_sample_rate (_ : Model) : Z := 16000.

Definition transcribe_stream (m : Model) (_ : Z * Z) (_ : bool) : string + E :=
  inr (mkE m "").

Definition enter (e : E) : E * option string := (e, None).
Definition exit_ (e : E) : E * option string := (e, None).

Definition add_audio (e : E) (_ : Samples) : E * option string :=
  match script e with
  | [] => (e, None)
  | inr t :: rest => (mkE rest t, None)
  | inl err :: rest => (mkE rest (text e), Some err)
  end.

Definition result (e : E) : option string := Some (text e).

(** A strict decoder of padded base64 text. *)
Definition sextet (c : ascii) : option N :=
  let n := N_of_ascii c in
  if ((65 <=? n) && (n <=? 90))%N then Some (n - 65)%N
  else if ((97 <=? n) && (n <=? 122))%N then Some (n - 71)%N
  else if ((48 <=? n) && (n <=? 57))%N then Some (n + 4)%N
  else if (n =? 43)%N then Some 62%N
  else if (n =? 47)%N then Some 63%N
  else None.

Definition pad : ascii := "="%char.

Fixpoint decode_quads (fuel : nat) (s : string) : option (list N) :=
  match fuel, s with
  | _, EmptyString => Some []
  | S fuel', String a (String b (String c (String d rest))) =>
      match sextet a, sextet b with
      | Some x, Some y =>
          let b0 := (x * 4 + y / 16)%N in
          match sextet c, sextet d with
          | Some z, Some w =>
              match decode_quads fuel' rest with
              | Some l =>
                  Some (b0 :: ((y mod 16) * 16 + z / 4) :: ((z mod 4) * 64 + w) :: l)%N
              | None => None
              end
          | Some z, None =>
              if Ascii.eqb d pad && truthy rest then None
              else if Ascii.eqb d pad
              then Some [b0; ((y mod 16) * 16 + z / 4)%N]
              else None
          | None, _ =>
              if Ascii.eqb c pad && Ascii.eqb d pad && negb (truthy rest)
              then Some [b0]
              else None
          end
      | _, _ => None
      end
  | _, _ => None
  end.

Definition b64decode (j : json) : string + Bytes :=
  match j with
  | JStr s =>
      match decode_quads (String.length s) s with
      | Some l => inr l
      | None => inl "Incorrect padding"
      end
  | _ =>
      inl ("argument should be a bytes-like object or ASCII string, not '"
             ++ py_type_name j ++ "'")%string
  end.

(** Little-endian 32-bit words; the size must be a multiple of four. *)
Fixpoint frombuffer (b : Bytes) : string + Samples :=
  match b with
  | [] => inr []
  | b0 :: b1 :: b2 :: b3 :: rest =>
      match frombuffer rest with
      | inr l => inr ((b0 + 256 * (b1 + 256 * (b2 + 256 * b3))) :: l)%N
      | inl msg => inl msg
      end
  | _ => inl "buffer size must be a multiple of element size"
  end.

Definition always_delivers (_ : nat) : option exn := None.

Definition env (send_result : nat -> option exn) : Env :=
  mkEnv Model E Samples Bytes model_sample_rate transcribe_stream enter add_audio
    exit_ result b64decode frombuffer send_result None.

(** The handler run against the doubles. *)
Definition run (send_result : nat -> option exn) (stt_model : option Model)
  (inbox : list inbound) : res unit * state (env send_result) :=
  session (env send_result) stt_model inbox.

(** A transport that delivers the first event and then fails. *)
Definition lossy (n : nat) : option exn :=
  if (1 <=? n)%nat then Some (Exception "connection lost") else None.

(** A connection lost at the [k]-th send: that send raises
    [WebSocketDisconnect] and the later ones a [RuntimeError]. *)
Definition drops_at (k n : nat) : option exn :=
  if (n <? k)%nat then None
  else if (n =? k)%nat then Some (WebSocketDisconnect "1006")
  else Some (Exception "Cannot call send once a close message has been sent.").

(** A transport that fails the [k]-th send with an ordinary error and
    delivers all the others: the connection outlives the failed send. *)
Definition hiccup (k n : nat) : option exn :=
  if (n =? k)%nat then Some (Exception "try again") else None.

Definition audio_message (data : string) : json :=
  JObj [("type", JStr "audio"); ("data", JStr data)].

Definition end_message : json := JObj [("type", JStr "end")].

Definition audio (data : string) : inbound := Text (inr (audio_message data)).

Definition end_ : inbound := Text (inr end_message).

(** One sample, 1.0, and a payload of two bytes, which is no array of
    float32. *)
Definition one_sample : string := "AACAPw==".
Definition two_bytes : string := "AAA=".

Definition W0 : Env := env always_delivers.

End Double.

(** Doubles for the one-shot endpoint: an engine that hears [" hello "] in
    every file, and a file system whose steps fail as asked. *)
Module DoubleOneShot.

Record faults : Type := mkFaults {
  write_fails : bool;
  info_fails : bool;
  transcribe_fails : bool;
  unlink_fails : bool
}.

Definition none : faults := mkFaults false false false false.

Definition env (f : faults) : OneShot Double.Model :=
  mkOneShot Double.Model (list N) Z (fun t => (0 <? t)%Z)
    (inr "/tmp/tmpab12.wav")
    (fun _ _ => if write_fails f then Some "No space left on device" else None)
    (fun _ => if info_fails f then inl "Format not recognised." else inr "1.5")
    (fun _ _ => if transcribe_fails f then inl "out of memory" else inr " hello ")
    (fun _ => if unlink_fails f then Some "Permission denied" else None).

Definition upload : UploadFile (list N) := mkUpload (list N) "a.wav" (inr [82%N; 73%N]).

Definition post (f : faults) (stt_model : option Double.Model) : response * list call :=
  transcribe_audio (env f) stt_model upload "parakeet-tdt-0.6b-v3" None "json" 0%Z None.

End DoubleOneShot.

(** Doubles for an engine that cannot open a streaming transcriber. *)
Module DoubleSetup.

(** [transcribe_stream] raises. *)
Definition refusing : Env :=
  mkEnv Double.Model Double.E Double.Samples Double.Bytes Double.model_sample_rate
    (fun _ _ _ => inl "context allocation failed")
    Double.enter Double.add_audio Double.exit_ Double.result
    Double.b64decode Double.frombuffer Double.always_delivers None.

(** [__enter__] raises. *)
Definition unenterable : Env :=
  mkEnv Double.Model Double.E Double.Samples Double.Bytes Double.model_sample_rate
    Double.transcribe_stream
    (fun e => (e, Some "cannot enter"))
    Double.add_audio Double.exit_ Double.result
    Double.b64decode Double.frombuffer Double.always_delivers None.

End DoubleSetup.

(** ** Properties of the handler *)

Section Properties.

Variable W : Env.

Implicit Types (s : state W) (inbox : list inbound).

(** *** Traces *)

Lemma events_app (l1 l2 : list (action (Samples W))) :
  events (l1 ++ l2) = events l1 ++ events l2.
Proof.
  induction l1 as [|a l1 IH]; simpl; [reflexivity|].
  destruct a; simpl; rewrite IH; reflexivity.
Qed.

Lemma releases_app (l1 l2 : list (action (Samples W))) :
  releases (l1 ++ l2) = releases l1 + releases l2.
Proof.
  induction l1 as [|a l1 IH]; simpl; [reflexivity|].
  destruct a; simpl; rewrite IH; reflexivity.
Qed.

Lemma ingested_app (l1 l2 : list (action (Samples W))) :
  ingested (l1 ++ l2) = ingested l1 ++ ingested l2.
Proof.
  induction l1 as [|a l1 IH]; simpl; [reflexivity|].
  destruct a; simpl; rewrite IH; reflexivity.
Qed.

(** *** Invariants of the monadic code *)

Lemma preserves_ret P A (a : A) : preserves P (ret W a).
Proof. intros ? H; exact H. Qed.

Lemma preserves_raise P A e : preserves P (@raise W A e).
Proof. intros ? H; exact H. Qed.

Lemma preserves_block P A : preserves P (@block W A).
Proof. intros ? H; exact H. Qed.

Lemma preserves_lift P A (r : string + A) : preserves P (lift W r).
Proof. destruct r as [msg|a]; intros ? H; exact H. Qed.

Lemma preserves_bind P A B (m : M W A) (k : A -> M W B) :
  preserves P m -> (forall a, preserves P (k a)) -> preserves P (bind W m k).
Proof.
  intros Hm Hk s H. unfold bind. specialize (Hm s H).
  destruct (m s) as [[a|e|] s']; simpl in *; auto. apply Hk; exact Hm.
Qed.

Lemma preserves_try_except P A (m : M W A) h :
  preserves P m -> (forall e k, h e = Some k -> preserves P k) ->
  preserves P (try_except W m h).
Proof.
  intros Hm Hh s H. unfold try_except. specialize (Hm s H).
  destruct (m s) as [[a|e|] s']; simpl in *; auto.
  destruct (h e) as [k|] eqn:He; simpl; auto. eapply Hh; eauto.
Qed.

Section Stable.

Variable P : state W -> Prop.
Hypothesis HP : stable P.

Lemma preserves_send_json ev : preserves P (send_json W ev).
Proof.
  intros s H. unfold send_json.
  destruct (send_result W (sends s)); simpl;
    [apply (stable_unsent W P HP) | apply (stable_sent W P HP)]; exact H.
Qed.

Lemma preserves_method f : preserves P (method W f).
Proof.
  intros s H. unfold method.
  destruct (transcriber s) as [e|] eqn:Ht; simpl; [|exact H].
  destruct (f e) as [e' [msg|]]; simpl;
    apply (stable_method W P HP s e e' Ht H).
Qed.

Lemma preserves_add_audio x : preserves P (call_add_audio W x).
Proof.
  unfold call_add_audio. apply preserves_bind.
  - intros s H. apply (stable_audio W P HP); exact H.
  - intros _. apply preserves_method.
Qed.

Lemma preserves_get_result : preserves P (get_result W).
Proof.
  intros s H. unfold get_result. destruct (transcriber s); exact H.
Qed.

Lemma preserves_data_get data k : preserves P (data_get W data k).
Proof. destruct data; intros ? H; exact H. Qed.

Lemma preserves_data_item data k : preserves P (data_item W data k).
Proof.
  destruct data; try (intros ? H; exact H).
  simpl. destruct (assoc k fields); intros ? H; exact H.
Qed.

Lemma preserves_receive_text m : preserves P (receive_text W m).
Proof. destruct m; intros ? H; exact H. Qed.

Ltac pres :=
  repeat first
    [ apply preserves_ret
    | apply preserves_send_json
    | apply preserves_add_audio
    | apply preserves_get_result
    | apply preserves_data_get
    | apply preserves_data_item
    | apply preserves_receive_text
    | apply preserves_lift
    | apply preserves_bind; [|intros]
    | match goal with
      | |- preserves _ (match ?x with _ => _ end) => destruct x
      end ].

Lemma preserves_body m : preserves P (body W m).
Proof. unfold body. pres. Qed.

Lemma preserves_iteration m : preserves P (iteration W m).
Proof.
  unfold iteration. apply preserves_try_except; [apply preserves_body|].
  intros e k He. destruct e; inversion He; subst; pres.
Qed.

Lemma preserves_loop inbox : preserves P (loop W inbox).
Proof.
  induction inbox as [|m rest IH]; simpl; [apply preserves_block|].
  apply preserves_bind; [apply preserves_iteration|].
  intros [|]; [exact IH | apply preserves_ret].
Qed.

Lemma preserves_on_exception e k :
  on_exception W e = Some k -> preserves P k.
Proof.
  destruct e; simpl; intros He; inversion He; subst; apply preserves_send_json.
Qed.

End Stable.

(** *** The loop and the handler, piece by piece *)

Lemma never_blocks_bind A B (m : M W A) (k : A -> M W B) :
  never_blocks m -> (forall a, never_blocks (k a)) -> never_blocks (bind W m k).
Proof.
  intros Hm Hk s. unfold bind. specialize (Hm s).
  destruct (m s) as [[a|e|] s']; simpl in *; try discriminate; auto.
  apply Hk.
Qed.

Lemma never_blocks_try_except A (m : M W A) h :
  never_blocks m -> (forall e k, h e = Some k -> never_blocks k) ->
  never_blocks (try_except W m h).
Proof.
  intros Hm Hh s. unfold try_except. specialize (Hm s).
  destruct (m s) as [[a|e|] s']; simpl in *; try discriminate; auto.
  destruct (h e) as [k|] eqn:He; simpl; [eapply Hh; eauto | discriminate].
Qed.

Lemma never_blocks_send_json ev : never_blocks (send_json W ev).
Proof.
  intros s. unfold send_json. destruct (send_result W (sends s)); discriminate.
Qed.

Lemma never_blocks_method f : never_blocks (method W f).
Proof.
  intros s. unfold method. destruct (transcriber s) as [e|]; [|discriminate].
  destruct (f e) as [e' [msg|]]; discriminate.
Qed.

Lemma never_blocks_tell a : never_blocks (tell W a).
Proof. intros s; discriminate. Qed.

Lemma never_blocks_ret A (a : A) : never_blocks (ret W a).
Proof. intros s; discriminate. Qed.

Lemma never_blocks_raise A e : never_blocks (@raise W A e).
Proof. intros s; discriminate. Qed.

Lemma never_blocks_lift A (r : string + A) : never_blocks (lift W r).
Proof. destruct r as [msg|a]; intros ?; discriminate. Qed.

Lemma never_blocks_get_result : never_blocks (get_result W).
Proof. intros s. unfold get_result. destruct (transcriber s); discriminate. Qed.

Ltac nb :=
  repeat first
    [ apply never_blocks_ret
    | apply never_blocks_raise
    | apply never_blocks_send_json
    | apply never_blocks_method
    | apply never_blocks_tell
    | apply never_blocks_get_result
    | apply never_blocks_lift
    | apply never_blocks_bind; [|intros]
    | match goal with
      | |- never_blocks (match ?x with _ => _ end) => destruct x
      end ].

Lemma never_blocks_body m : never_blocks (body W m).
Proof.
  unfold body, receive_text, data_get, data_item, call_add_audio. nb.
Qed.

Lemma never_blocks_iteration m : never_blocks (iteration W m).
Proof.
  unfold iteration. apply never_blocks_try_except; [apply never_blocks_body|].
  intros e k He. destruct e; inversion He; subst; nb.
Qed.

Lemma never_blocks_setup model : never_blocks (setup W model).
Proof.
  unfold setup, call_enter. nb.
  intros s. unfold call_transcribe_stream.
  destruct (transcribe_stream W model context_size false); discriminate.
Qed.

Lemma loop_app inbox1 inbox2 s :
  loop W (inbox1 ++ inbox2) s =
  match loop W inbox1 s with
  | (Blocked, s') => loop W inbox2 s'
  | r => r
  end.
Proof.
  revert s. induction inbox1 as [|m rest IH]; intros s; simpl; [reflexivity|].
  unfold bind. pose proof (never_blocks_iteration m s) as Hn.
  destruct (iteration W m s) as [[[|]|e|] s'];
    [apply IH | reflexivity | reflexivity | simpl in Hn; congruence].
Qed.

Lemma teardown_spec s :
  exists s',
    teardown W s = (Val tt, s') /\
    sends s' = sends s /\
    log s' = log s ++ (match transcriber s with
                       | Some _ => [Released]
                       | None => []
                       end) ++ [Closed].
Proof.
  unfold teardown, if_transcriber, bind, try_except, call_exit, bind, tell,
    method, websocket_close, bind, tell, record, ret, raise.
  destruct (transcriber s) as [e|] eqn:Ht; simpl.
  - try rewrite Ht. destruct (exit_ W e) as [e' [msg|]]; simpl;
      destruct (close_result W) as [c|]; simpl;
      eexists; (split; [reflexivity|]); simpl; rewrite <- app_assoc; auto.
  - destruct (close_result W) as [c|]; simpl;
      eexists; (split; [reflexivity|]); simpl; auto.
Qed.

Lemma realtime_setup model inbox s :
  realtime_transcription W (Some model) inbox s =
  try_finally W (try_except W (bind W (setup W model) (fun _ => loop W inbox))
                   (on_exception W)) (teardown W) s.
Proof.
  unfold realtime_transcription, setup, try_finally, try_except, bind.
  destruct (call_transcribe_stream W model s) as [[[]|e|] s1]; try reflexivity.
  destruct (call_enter W s1) as [[[]|e|] s2]; try reflexivity.
Qed.

(** Once the [finally] clause has run, the coroutine is over. *)
Lemma try_finally_teardown_blocked (m : M W unit) s s1 :
  try_finally W m (teardown W) s = (Blocked, s1) -> m s = (Blocked, s1).
Proof.
  unfold try_finally. destruct (m s) as [[[]|e|] s'] eqn:Hm; auto;
    destruct (teardown_spec s') as (s'' & Ht & _); rewrite Ht; discriminate.
Qed.

Lemma try_except_blocked (m : M W unit) s s1 :
  try_except W m (on_exception W) s = (Blocked, s1) -> m s = (Blocked, s1).
Proof.
  unfold try_except. destruct (m s) as [[[]|e|] s'] eqn:Hm; auto.
  destruct e; simpl; try discriminate;
    match goal with |- send_json W ?ev ?s = _ -> _ =>
      pose proof (never_blocks_send_json ev s) as Hs; intros Heq;
      rewrite Heq in Hs; simpl in Hs; congruence
    end.
Qed.

Lemma session_blocked model inbox s1 :
  session W (Some model) inbox = (Blocked, s1) ->
  exists s0,
    setup W model (initial W) = (Val tt, s0) /\ loop W inbox s0 = (Blocked, s1).
Proof.
  unfold session. rewrite realtime_setup. intros H.
  apply try_finally_teardown_blocked, try_except_blocked in H.
  unfold bind in H. pose proof (never_blocks_setup model (initial W)) as Hn.
  destruct (setup W model (initial W)) as [[[]|e|] s0]; simpl in *;
    try discriminate; [eauto | congruence].
Qed.

Lemma session_resume model inbox s0 :
  setup W model (initial W) = (Val tt, s0) ->
  session W (Some model) inbox = resume W inbox s0.
Proof.
  intros H. unfold session. rewrite realtime_setup.
  unfold resume, try_finally, try_except, bind. rewrite H. reflexivity.
Qed.

Lemma resume_app inbox1 inbox2 s0 s1 :
  loop W inbox1 s0 = (Blocked, s1) ->
  resume W (inbox1 ++ inbox2) s0 = resume W inbox2 s1.
Proof.
  intros H. unfold resume, try_finally, try_except.
  rewrite loop_app, H. reflexivity.
Qed.

(** A session suspended after [inbox1] handles whatever comes next from
    the state it is suspended in. *)
Lemma session_app model inbox1 inbox2 s1 :
  session W (Some model) inbox1 = (Blocked, s1) ->
  session W (Some model) (inbox1 ++ inbox2) = resume W inbox2 s1.
Proof.
  intros H. destruct (session_blocked _ _ _ H) as (s0 & Hs & Hl).
  rewrite (session_resume _ _ _ Hs). apply resume_app; exact Hl.
Qed.

Lemma resume_nil s : resume W [] s = (Blocked, s).
Proof. reflexivity. Qed.

(** *** The transcriber stays bound, and unreleased, inside the [try] *)

Lemma acquired_snoc (l : list (action (Samples W))) a :
  a <> Acquired -> acquired (l ++ [a]) -> acquired l.
Proof.
  unfold acquired. intros Ha H. apply in_app_or in H.
  destruct H as [H|[H|[]]]; [exact H | congruence].
Qed.

Lemma stable_bound : stable (bound W).
Proof.
  split; unfold bound, record; simpl; intros; auto; discriminate.
Qed.

Lemma stable_unreleased : stable (unreleased W).
Proof.
  split; unfold unreleased, record; simpl.
  - intros s ev [Hr Ha]. rewrite releases_app, Hr. split; [reflexivity|].
    intros H. apply Ha. eapply acquired_snoc; [|exact H]. discriminate.
  - intros s H; exact H.
  - intros s x [Hr Ha]. rewrite releases_app, Hr. split; [reflexivity|].
    intros H. apply Ha. eapply acquired_snoc; [|exact H]. discriminate.
  - intros s e e' _ [Hr Ha]. split; [exact Hr | discriminate].
Qed.

Lemma preserves_setup_unreleased model : preserves (unreleased W) (setup W model).
Proof.
  unfold setup. apply preserves_bind; [|intros _; apply preserves_bind].
  - intros s [Hr Ha]. unfold call_transcribe_stream.
    destruct (transcribe_stream W model context_size false); simpl;
      split; auto; discriminate.
  - intros s [Hr Ha]. unfold call_enter, bind, method, tell, record.
    destruct (transcriber s) as [e|] eqn:Ht; simpl.
    2: { split; [exact Hr | rewrite Ht; exact Ha]. }
    destruct (enter W e) as [e' [msg|]]; simpl; unfold unreleased; simpl.
    + split; [exact Hr | discriminate].
    + rewrite releases_app, Hr. split; [reflexivity | discriminate].
  - intros _. apply preserves_send_json, stable_unreleased.
Qed.

Lemma setup_bound model s s0 :
  setup W model s = (Val tt, s0) -> bound W s0.
Proof.
  unfold setup, bind, call_transcribe_stream, call_enter, bind, method, tell,
    record, send_json, bound.
  destruct (transcribe_stream W model context_size false) as [msg|e]; simpl;
    [discriminate|].
  destruct (enter W e) as [e' [msg|]]; simpl; [discriminate|].
  destruct (send_result W (sends s)); intros H; inversion H; subst; simpl;
    discriminate.
Qed.

Lemma session_blocked_bound model inbox s1 :
  session W (Some model) inbox = (Blocked, s1) ->
  exists e, transcriber s1 = Some e.
Proof.
  intros H. destruct (session_blocked _ _ _ H) as (s0 & Hs & Hl).
  pose proof (preserves_loop (bound W) stable_bound inbox s0 (setup_bound _ _ _ Hs)) as Hb.
  rewrite Hl in Hb. unfold bound in Hb; simpl in Hb.
  destruct (transcriber s1) as [e|]; [eauto | congruence].
Qed.

(** C3.  Whatever the engine, the client and the transport do, a call of
    the handler that is over (it returned or raised: after an [end]
    message, a disconnect, or an error that left the loop) and in which
    [transcriber.__enter__()] returned has called [transcriber.__exit__]
    exactly once. *)
Theorem release_exactly_once stt_model inbox r s :
  session W stt_model inbox = (r, s) ->
  terminated r ->
  acquired (log s) ->
  releases (log s) = 1.
Proof.
  destruct stt_model as [model|].
  - unfold session. rewrite realtime_setup. unfold try_finally.
    set (inner := try_except W (bind W (setup W model) (fun _ => loop W inbox))
                    (on_exception W)).
    assert (Hi : preserves (unreleased W) inner).
    { apply preserves_try_except.
      - apply preserves_bind; [apply preserves_setup_unreleased|].
        intros _. apply preserves_loop, stable_unreleased.
      - intros e k. apply preserves_on_exception, stable_unreleased. }
    assert (H0 : unreleased W (initial W)).
    { split; [reflexivity | intros []]. }
    specialize (Hi _ H0). destruct (inner (initial W)) as [r1 s1].
    simpl in Hi. destruct Hi as [Hr Ha].
    destruct (teardown_spec s1) as (s' & Ht & _ & Hl). rewrite Ht.
    assert (Hacq : acquired (log s') -> releases (log s') = 1).
    { rewrite Hl. intros H.
      assert (Hin : acquired (log s1)).
      { unfold acquired in *. apply in_app_or in H. destruct H as [H|H]; auto.
        apply in_app_or in H.
        destruct H as [H|[H|[]]]; [|discriminate].
        destruct (transcriber s1); simpl in H;
          [destruct H as [H|[]]; discriminate | destruct H]. }
      specialize (Ha Hin). rewrite !releases_app, Hr.
      destruct (transcriber s1); [reflexivity | congruence]. }
    destruct r1 as [[]|e|]; intros H; inversion H; subst; auto.
    intros Hterm; exfalso; apply Hterm; reflexivity.
  - unfold session, realtime_transcription, bind, send_json, websocket_close,
      bind, tell, record, ret, raise. simpl.
    destruct (send_result W 0); simpl.
    + intros H; inversion H; subst; simpl. intros _ [].
    + destruct (close_result W); intros H; inversion H; subst; simpl;
        intros _ [Hc|[Hc|[]]]; discriminate.
Qed.

(** C8.  With no model loaded the handler sends one error event, closes
    the connection and is over: no transcriber is created or entered, and
    nothing of what the client sends is read or ingested. *)
Theorem no_model_error_and_stop inbox r s :
  send_result W 0 = None ->
  session W None inbox = (r, s) ->
  terminated r /\
  log s = [Sent (error_event "Model not loaded"); Closed] /\
  events (log s) = [error_event "Model not loaded"] /\
  ~ acquired (log s) /\
  ingested (log s) = [] /\
  transcriber s = None.
Proof.
  intros Hsend.
  unfold session, realtime_transcription, bind, send_json, websocket_close,
    bind, tell, record, ret, raise. simpl. rewrite Hsend. simpl.
  destruct (close_result W); intros H; inversion H; subst; simpl;
    (split; [discriminate|]); repeat split; auto;
    intros [Hc|[Hc|[]]]; discriminate.
Qed.

(** *** One turn of the loop *)

Lemma resume_break m inbox s s' :
  iteration W m s = (Val Break, s') ->
  exists s2,
    resume W (m :: inbox) s = (Val tt, s2) /\
    sends s2 = sends s' /\
    log s2 = log s' ++ (match transcriber s' with
                        | Some _ => [Released]
                        | None => []
                        end) ++ [Closed].
Proof.
  intros H. unfold resume, try_finally, try_except. simpl. unfold bind.
  rewrite H. simpl. destruct (teardown_spec s') as (s2 & Ht & Hs & Hl).
  rewrite Ht. eauto.
Qed.

Lemma resume_continue m inbox s s' :
  iteration W m s = (Val Continue, s') ->
  resume W (m :: inbox) s = resume W inbox s'.
Proof.
  intros H. unfold resume, try_finally, try_except. simpl. unfold bind.
  rewrite H. reflexivity.
Qed.

(** C9.  When [receive_text] raises [WebSocketDisconnect] in a session
    that is waiting for a message, the handler leaves the loop and
    returns: all that happens after the disconnect is the release of the
    transcriber and the closing of the socket.  No [send_json] is called,
    nothing is ingested, and what the client had still queued is not
    read. *)
Theorem disconnect_terminates model inbox1 inbox2 code s1 :
  session W (Some model) inbox1 = (Blocked, s1) ->
  exists s2,
    session W (Some model)
      (inbox1 ++ RecvRaises (WebSocketDisconnect code) :: inbox2) = (Val tt, s2) /\
    log s2 = log s1 ++ [Released; Closed] /\
    sends s2 = sends s1.
Proof.
  intros H. rewrite (session_app _ _ _ _ H).
  destruct (session_blocked_bound _ _ _ H) as (e & He).
  destruct (resume_break (RecvRaises (WebSocketDisconnect code)) inbox2 s1 s1)
    as (s2 & Hr & Hs & Hl); [reflexivity|].
  exists s2. rewrite He in Hl. auto.
Qed.

(** The same holds when it is a [send_json] of the loop body that raises
    [WebSocketDisconnect]. *)
Lemma disconnect_in_body_terminates m inbox code s s' :
  body W m s = (Raise (WebSocketDisconnect code), s') ->
  transcriber s' <> None ->
  exists s2,
    resume W (m :: inbox) s = (Val tt, s2) /\
    log s2 = log s' ++ [Released; Closed] /\
    sends s2 = sends s'.
Proof.
  intros Hb Ht.
  assert (Hi : iteration W m s = (Val Break, s')).
  { unfold iteration, try_except. rewrite Hb. reflexivity. }
  destruct (resume_break _ inbox _ _ Hi) as (s2 & Hr & Hs & Hl).
  exists s2. destruct (transcriber s'); [auto | congruence].
Qed.

Lemma py_eq_str_true v t : py_eq_str v t = true <-> v = JStr t.
Proof.
  destruct v; simpl; split; try discriminate.
  - intros H. apply String.eqb_eq in H. congruence.
  - intros H. inversion H. apply String.eqb_refl.
Qed.

Lemma py_eq_str_false v t : v <> JStr t -> py_eq_str v t = false.
Proof.
  intros H. destruct (py_eq_str v t) eqn:He; [|reflexivity].
  apply py_eq_str_true in He. contradiction.
Qed.

(** C10 (amended).  A message that decodes to a JSON object whose
    ["type"] is neither ["audio"] nor ["end"] (or is missing) changes
    nothing: the session is suspended again in the very state it was in,
    so no event is sent, nothing is ingested, and the session goes on as
    if the message had not been sent. *)
Theorem unknown_type_is_ignored model inbox1 inbox2 fields s1 :
  session W (Some model) inbox1 = (Blocked, s1) ->
  get "type" (JObj fields) <> Some (JStr "audio") ->
  get "type" (JObj fields) <> Some (JStr "end") ->
  session W (Some model) (inbox1 ++ [Text (inr (JObj fields))]) = (Blocked, s1) /\
  session W (Some model) (inbox1 ++ Text (inr (JObj fields)) :: inbox2) =
  session W (Some model) (inbox1 ++ inbox2).
Proof.
  intros H Ha He.
  assert (Hi : iteration W (Text (inr (JObj fields))) s1 = (Val Continue, s1)).
  { unfold iteration, try_except, body, bind. simpl in *.
    rewrite !py_eq_str_false; [reflexivity| |];
      destruct (assoc "type" fields); congruence. }
  rewrite !(session_app _ _ _ _ H).
  rewrite !(resume_continue _ _ _ _ Hi). split; reflexivity.
Qed.

(** *** Messages handled over a transport that delivers *)

Lemma strip_empty t : truthy t = false -> truthy (strip t) = false.
Proof. destruct t; [reflexivity | discriminate]. Qed.

Lemma get_type_object data v :
  get "type" data = Some v ->
  exists fields, data = JObj fields /\ assoc "type" fields = Some v.
Proof. destruct data; simpl; try discriminate. eauto. Qed.

(** An [end] message: the final event, if the engine has any text, then
    [done], and the loop is left. *)
Lemma iteration_end data e s :
  reliable (send_result W) ->
  transcriber s = Some e ->
  get "type" data = Some (JStr "end") ->
  exists s',
    iteration W (Text (inr data)) s = (Val Break, s') /\
    transcriber s' = Some e /\
    events (log s') = events (log s) ++
      match result W e with
      | Some t =>
          if truthy t then [transcription_event (strip t) true; done_event]
          else [done_event]
      | None => [done_event]
      end.
Proof.
  intros Hrel Ht Hty. destruct (get_type_object _ _ Hty) as (fields & -> & Ha).
  unfold iteration, try_except, body, bind, get_result, send_json. simpl.
  rewrite Ha. simpl. rewrite Ht. simpl.
  destruct (result W e) as [t|]; [destruct (truthy t)|];
    rewrite ?Hrel; simpl; rewrite ?Hrel; simpl;
    eexists; (split; [reflexivity|]); simpl; (split; [exact Ht|]);
    rewrite ?events_app; simpl; rewrite <- ?app_assoc; reflexivity.
Qed.

(** An audio message that decodes and is ingested: the chunk goes to the
    engine, and a partial event follows when the engine's text, stripped,
    is not empty. *)
Lemma iteration_audio data x e e' s :
  reliable (send_result W) ->
  transcriber s = Some e ->
  audio_chunk W data x ->
  add_audio W e x = (e', None) ->
  exists s',
    iteration W (Text (inr data)) s = (Val Continue, s') /\
    transcriber s' = Some e' /\
    ingested (log s') = ingested (log s) ++ [x] /\
    events (log s') = events (log s) ++
      match result W e' with
      | Some t =>
          if truthy (strip t) then [transcription_event (strip t) false] else []
      | None => []
      end.
Proof.
  intros Hrel Ht (Hty & payload & bytes & Hp & Hb & Hf) Hadd.
  destruct (get_type_object _ _ Hty) as (fields & -> & Ha). simpl in Hp.
  unfold iteration, try_except, body, bind, call_add_audio, bind, tell, method,
    record, get_result, send_json. simpl.
  rewrite Ha. simpl. rewrite Hp. simpl. rewrite Hb. simpl. rewrite Hf. simpl.
  rewrite Ht, Hadd. simpl.
  destruct (result W e') as [t|]; [destruct (truthy t) eqn:Htt|].
  - destruct (truthy (strip t)); simpl; rewrite ?Hrel; simpl;
      eexists; (split; [reflexivity|]); simpl; (split; [reflexivity|]);
      rewrite ?events_app, ?ingested_app; simpl;
      rewrite ?app_nil_r; split; reflexivity.
  - rewrite (strip_empty _ Htt). simpl.
    eexists; (split; [reflexivity|]); simpl; (split; [reflexivity|]);
      rewrite ?events_app, ?ingested_app; simpl;
      rewrite ?app_nil_r; split; reflexivity.
  - simpl. eexists; (split; [reflexivity|]); simpl; (split; [reflexivity|]);
      rewrite ?events_app, ?ingested_app; simpl;
      rewrite ?app_nil_r; split; reflexivity.
Qed.

Lemma teardown_events s s' :
  teardown W s = (Val tt, s') -> events (log s') = events (log s).
Proof.
  intros H. destruct (teardown_spec s) as (s2 & Ht & _ & Hl).
  rewrite Ht in H. inversion H; subst. rewrite Hl, !events_app.
  destruct (transcriber s); simpl; apply app_nil_r.
Qed.

Lemma setup_ready model s0 :
  reliable (send_result W) ->
  setup W model (initial W) = (Val tt, s0) ->
  events (log s0) = [ready_event (model_sample_rate W model)].
Proof.
  intros Hrel.
  unfold setup, bind, call_transcribe_stream, call_enter, bind, method, tell,
    record, send_json.
  destruct (transcribe_stream W model context_size false) as [msg|e]; simpl;
    [discriminate|].
  destruct (enter W e) as [e' [msg|]]; simpl; [discriminate|].
  rewrite Hrel. intros H; inversion H; subst; reflexivity.
Qed.

Lemma session_opened model s1 :
  reliable (send_result W) ->
  session W (Some model) [] = (Blocked, s1) ->
  events (log s1) = [ready_event (model_sample_rate W model)].
Proof.
  intros Hrel H. destruct (session_blocked _ _ _ H) as (s0 & Hs & Hl).
  simpl in Hl. inversion Hl; subst. exact (setup_ready _ _ Hrel Hs).
Qed.

(** C1 (amended).  On an [end] message, in a session that is waiting for
    a message and whose events are delivered, the handler sends the final
    event only if the engine has a result whose text is not empty (the
    event carries the stripped text), then sends [done] and returns; with
    no result or an empty text it sends [done] alone.  In particular, a
    session that is opened and ended with no audio in between, the engine
    having no result or an empty text, gets [ready] and then [done], and
    no final event. *)
Theorem end_sends_final_when_text model inbox1 inbox2 data s1 :
  reliable (send_result W) ->
  session W (Some model) inbox1 = (Blocked, s1) ->
  get "type" data = Some (JStr "end") ->
  exists e s2,
    transcriber s1 = Some e /\
    session W (Some model) (inbox1 ++ Text (inr data) :: inbox2) = (Val tt, s2) /\
    events (log s2) = events (log s1) ++
      match result W e with
      | Some t =>
          if truthy t then [transcription_event (strip t) true; done_event]
          else [done_event]
      | None => [done_event]
      end /\
    (inbox1 = [] ->
     result W e = None \/ result W e = Some "" ->
     events (log s2) = [ready_event (model_sample_rate W model); done_event]).
Proof.
  intros Hrel H Hty. destruct (session_blocked_bound _ _ _ H) as (e & He).
  destruct (iteration_end data e s1 Hrel He Hty) as (s' & Hi & _ & Hev).
  destruct (resume_break _ inbox2 _ _ Hi) as (s2 & Hr & _ & Hl).
  assert (Hevs : events (log s2) = events (log s1) ++
      match result W e with
      | Some t =>
          if truthy t then [transcription_event (strip t) true; done_event]
          else [done_event]
      | None => [done_event]
      end).
  { rewrite Hl, !events_app, Hev.
    destruct (transcriber s'); simpl; rewrite app_nil_r; reflexivity. }
  exists e, s2. split; [exact He|]. split; [|split].
  - rewrite (session_app _ _ _ _ H). exact Hr.
  - exact Hevs.
  - intros -> Hres. rewrite Hevs, (session_opened _ _ Hrel H).
    destruct Hres as [-> | ->]; reflexivity.
Qed.

(** C2 (amended).  After an audio chunk that decodes and is ingested, in
    a session whose events are delivered, a partial event is sent exactly
    when the engine's current text, stripped of white space, is not
    empty; it carries the stripped text.  The text sent before plays no
    part. *)
Theorem partial_iff_text_nonempty model inbox1 data x e e' s1 :
  reliable (send_result W) ->
  session W (Some model) inbox1 = (Blocked, s1) ->
  transcriber s1 = Some e ->
  audio_chunk W data x ->
  add_audio W e x = (e', None) ->
  exists s2,
    session W (Some model) (inbox1 ++ [Text (inr data)]) = (Blocked, s2) /\
    transcriber s2 = Some e' /\
    ingested (log s2) = ingested (log s1) ++ [x] /\
    events (log s2) = events (log s1) ++
      match result W e' with
      | Some t =>
          if truthy (strip t) then [transcription_event (strip t) false] else []
      | None => []
      end.
Proof.
  intros Hrel H He Hc Hadd.
  destruct (iteration_audio data x e e' s1 Hrel He Hc Hadd)
    as (s2 & Hi & Ht & Hin & Hev).
  exists s2. rewrite (session_app _ _ _ _ H), (resume_continue _ _ _ _ Hi).
  auto.
Qed.

(** C6.  Three chunks after which the engine shows [""], ["hello"] and
    ["hello world"]: two partial events, ["hello"] and ["hello world"],
    and nothing for the first chunk. *)
Theorem three_chunks_two_partials model inbox1 d1 d2 d3 x1 x2 x3 e0 e1 e2 e3 s0 :
  reliable (send_result W) ->
  session W (Some model) inbox1 = (Blocked, s0) ->
  transcriber s0 = Some e0 ->
  audio_chunk W d1 x1 -> audio_chunk W d2 x2 -> audio_chunk W d3 x3 ->
  add_audio W e0 x1 = (e1, None) -> result W e1 = Some "" ->
  add_audio W e1 x2 = (e2, None) -> result W e2 = Some "hello" ->
  add_audio W e2 x3 = (e3, None) -> result W e3 = Some "hello world" ->
  exists s3,
    session W (Some model)
      (inbox1 ++ [Text (inr d1); Text (inr d2); Text (inr d3)]) = (Blocked, s3) /\
    ingested (log s3) = ingested (log s0) ++ [x1; x2; x3] /\
    events (log s3) = events (log s0) ++
      [transcription_event "hello" false; transcription_event "hello world" false].
Proof.
  intros Hrel H He Hc1 Hc2 Hc3 Ha1 Hr1 Ha2 Hr2 Ha3 Hr3.
  destruct (iteration_audio d1 x1 e0 e1 s0 Hrel He Hc1 Ha1)
    as (s1 & Hi1 & Ht1 & Hin1 & Hev1).
  destruct (iteration_audio d2 x2 e1 e2 s1 Hrel Ht1 Hc2 Ha2)
    as (s2 & Hi2 & Ht2 & Hin2 & Hev2).
  destruct (iteration_audio d3 x3 e2 e3 s2 Hrel Ht2 Hc3 Ha3)
    as (s3 & Hi3 & Ht3 & Hin3 & Hev3).
  exists s3. rewrite (session_app _ _ _ _ H).
  rewrite (resume_continue _ _ _ _ Hi1), (resume_continue _ _ _ _ Hi2),
    (resume_continue _ _ _ _ Hi3).
  split; [reflexivity|]. split.
  - rewrite Hin3, Hin2, Hin1, <- !app_assoc. reflexivity.
  - rewrite Hev3, Hev2, Hev1, Hr1, Hr2, Hr3. simpl.
    rewrite app_nil_r, <- app_assoc. reflexivity.
Qed.

(** *** Errors on one chunk *)

Ltac break_match_in H :=
  match type of H with
  | context [match ?x with _ => _ end] =>
      lazymatch x with
      | context [match _ with _ => _ end] => fail
      | _ => destruct x eqn:?
      end
  end.

(** An audio message whose handling raises has sent nothing. *)
Lemma body_audio_raises data msg s s' :
  reliable (send_result W) ->
  get "type" data = Some (JStr "audio") ->
  body W (Text (inr data)) s = (Raise (Exception msg), s') ->
  events (log s') = events (log s) /\ sends s' = sends s.
Proof.
  intros Hrel Hty. destruct (get_type_object _ _ Hty) as (fields & -> & Ha).
  unfold body, bind, call_add_audio, bind, tell, method, record, get_result,
    send_json, lift, ret, raise. simpl.
  rewrite Ha. simpl. intros H.
  repeat (break_match_in H; simpl in H; rewrite ?Hrel in H;
          try discriminate);
    inversion H; subst; simpl; rewrite ?events_app; simpl;
    rewrite ?app_nil_r; auto.
Qed.

Lemma iteration_raises m msg s s' :
  send_result W (sends s') = None ->
  body W m s = (Raise (Exception msg), s') ->
  iteration W m s =
  (Val Continue,
   mkState W (transcriber s') (S (sends s')) (log s' ++ [Sent (error_event msg)])).
Proof.
  intros Hs Hb. unfold iteration, try_except. rewrite Hb.
  unfold bind, send_json. rewrite Hs. reflexivity.
Qed.

(** The ways in which an audio message fails. *)
Lemma missing_payload_raises data s :
  get "type" data = Some (JStr "audio") ->
  get "data" data = None ->
  body W (Text (inr data)) s = (Raise (Exception "'data'"), s).
Proof.
  intros Hty Hd. destruct (get_type_object _ _ Hty) as (fields & -> & Ha).
  simpl in Hd. unfold body, bind. simpl. rewrite Ha. simpl. rewrite Hd.
  reflexivity.
Qed.

Lemma undecodable_payload_raises data payload msg s :
  get "type" data = Some (JStr "audio") ->
  get "data" data = Some payload ->
  b64decode W payload = inl msg ->
  body W (Text (inr data)) s = (Raise (Exception msg), s).
Proof.
  intros Hty Hd Hb. destruct (get_type_object _ _ Hty) as (fields & -> & Ha).
  simpl in Hd. unfold body, bind. simpl. rewrite Ha. simpl. rewrite Hd. simpl.
  rewrite Hb. reflexivity.
Qed.

Lemma misaligned_payload_raises data payload bytes msg s :
  get "type" data = Some (JStr "audio") ->
  get "data" data = Some payload ->
  b64decode W payload = inr bytes ->
  frombuffer W bytes = inl msg ->
  body W (Text (inr data)) s = (Raise (Exception msg), s).
Proof.
  intros Hty Hd Hb Hf. destruct (get_type_object _ _ Hty) as (fields & -> & Ha).
  simpl in Hd. unfold body, bind. simpl. rewrite Ha. simpl. rewrite Hd. simpl.
  rewrite Hb. simpl. rewrite Hf. reflexivity.
Qed.

Lemma rejected_chunk_raises data x e e' msg s :
  transcriber s = Some e ->
  audio_chunk W data x ->
  add_audio W e x = (e', Some msg) ->
  body W (Text (inr data)) s =
  (Raise (Exception msg), mkState W (Some e') (sends s) (log s ++ [AddAudio x])).
Proof.
  intros Ht (Hty & payload & bytes & Hd & Hb & Hf) Hadd.
  destruct (get_type_object _ _ Hty) as (fields & -> & Ha).
  simpl in Hd. unfold body, bind, call_add_audio, bind, tell, method, record.
  simpl. rewrite Ha. simpl. rewrite Hd. simpl. rewrite Hb. simpl. rewrite Hf.
  simpl. rewrite Ht, Hadd. reflexivity.
Qed.

(** C5.  When the handling of an audio message raises an error (the
    payload is missing or does not decode, or the engine rejects the
    chunk), in a session that is waiting for a message and whose events
    are delivered, the handler sends one error event with the text of the
    error and waits for the next message, which it handles as usual. *)
Theorem chunk_error_is_not_fatal model inbox1 data msg s1 s1' :
  reliable (send_result W) ->
  session W (Some model) inbox1 = (Blocked, s1) ->
  get "type" data = Some (JStr "audio") ->
  body W (Text (inr data)) s1 = (Raise (Exception msg), s1') ->
  exists s2,
    events (log s2) = events (log s1) ++ [error_event msg] /\
    session W (Some model) (inbox1 ++ [Text (inr data)]) = (Blocked, s2) /\
    forall inbox2,
      session W (Some model) (inbox1 ++ Text (inr data) :: inbox2) =
      resume W inbox2 s2.
Proof.
  intros Hrel H Hty Hb.
  destruct (body_audio_raises _ _ _ _ Hrel Hty Hb) as [Hev _].
  pose proof (iteration_raises _ _ _ _ (Hrel _) Hb) as Hi.
  exists (mkState W (transcriber s1') (S (sends s1'))
            (log s1' ++ [Sent (error_event msg)])).
  split; [|split].
  - simpl. rewrite events_app, Hev. reflexivity.
  - rewrite (session_app _ _ _ _ H), (resume_continue _ _ _ _ Hi).
    reflexivity.
  - intros inbox2.
    rewrite (session_app _ _ _ _ H), (resume_continue _ _ _ _ Hi).
    reflexivity.
Qed.

(** *** The first event *)

Lemma stable_extends (l0 : list (action (Samples W))) : stable (extends l0).
Proof.
  split; unfold extends, record; simpl.
  - intros s ev [ext H]. exists (ext ++ [Sent ev]). rewrite H, app_assoc; reflexivity.
  - intros s H; exact H.
  - intros s x [ext H]. exists (ext ++ [AddAudio x]). rewrite H, app_assoc; reflexivity.
  - intros s e e' _ H; exact H.
Qed.

Lemma resume_extends inbox s0 r s :
  resume W inbox s0 = (r, s) -> extends (log s0) s.
Proof.
  unfold resume, try_finally.
  set (inner := try_except W (loop W inbox) (on_exception W)).
  assert (Hi : preserves (extends (log s0)) inner).
  { apply preserves_try_except.
    - apply preserves_loop, stable_extends.
    - intros e k. apply preserves_on_exception, stable_extends. }
  specialize (Hi s0). destruct (inner s0) as [r1 s1]. simpl in Hi.
  destruct Hi as [ext He]; [exists []; symmetry; apply app_nil_r|].
  destruct (teardown_spec s1) as (s' & Ht & _ & Hl). rewrite Ht.
  destruct r1 as [[]|e|]; intros H; inversion H; subst;
    try (eexists; rewrite Hl, He, <- app_assoc; reflexivity).
  exists ext; exact He.
Qed.

(** C7 (amended).  When the transcriber is created and entered and the
    transport delivers the first event, that event is the ready event
    with the sample rate of the model and the fixed message, and so
    comes before any transcription event.  These are its only fields. *)
Theorem ready_is_first model e0 inbox r s :
  transcribe_stream W model context_size false = inr e0 ->
  snd (enter W e0) = None ->
  send_result W 0 = None ->
  session W (Some model) inbox = (r, s) ->
  exists ev rest,
    events (log s) = ev :: rest /\
    ev = ready_event (model_sample_rate W model) /\
    get "type" ev = Some (JStr "ready") /\
    get "sample_rate" ev = Some (JInt (model_sample_rate W model)) /\
    keys ev = ["type"; "sample_rate"; "message"].
Proof.
  intros Hts He Hs.
  assert (H0 : exists s0, setup W model (initial W) = (Val tt, s0) /\
                log s0 = [Acquired; Sent (ready_event (model_sample_rate W model))]).
  { unfold setup, bind, call_transcribe_stream, call_enter, bind, method, tell,
      record, send_json. simpl. rewrite Hts. simpl.
    destruct (enter W e0) as [e' o]. simpl in He. subst o. simpl.
    rewrite Hs. eexists; split; reflexivity. }
  destruct H0 as (s0 & Hsetup & Hl0).
  rewrite (session_resume _ _ _ Hsetup). intros Hr.
  destruct (resume_extends _ _ _ _ Hr) as [ext Hext].
  exists (ready_event (model_sample_rate W model)), (events ext).
  rewrite Hext, Hl0. simpl. auto.
Qed.

(** *** The final event *)

Lemma nofinal_snoc evs ev :
  nofinal evs -> is_final ev = false -> nofinal (evs ++ [ev]).
Proof.
  intros H He. apply Forall_app. split; [exact H|]. constructor; auto.
Qed.

Lemma closing_final evs t :
  nofinal evs -> closing (evs ++ [transcription_event t true]).
Proof. intros H. exists evs, t, []. auto. Qed.

Lemma closing_done evs t :
  nofinal evs -> closing ((evs ++ [transcription_event t true]) ++ [done_event]).
Proof.
  intros H. exists evs, t, [done_event]. rewrite <- app_assoc. auto.
Qed.

Ltac settle_final Hnf :=
  rewrite ?events_app; simpl; rewrite ?app_nil_r;
  first
    [ left; solve [repeat (apply nofinal_snoc; [|reflexivity]); exact Hnf]
    | right; split;
      [ solve [auto]
      | first [apply closing_done; exact Hnf | apply closing_final; exact Hnf] ] ].

Ltac delivered_after_failure Hst :=
  match goal with
  | H1 : send_result _ ?k = Some _, H2 : send_result _ (S ?k) = None |- _ =>
      exfalso; apply (Hst k); [rewrite H1; discriminate | exact H2]
  end.

Ltac settle_turn Hnf :=
  rewrite ?events_app; simpl; rewrite ?app_nil_r;
  first
    [ left; solve [repeat (apply nofinal_snoc; [|reflexivity]); exact Hnf]
    | right; split;
      [ first [apply closing_done; exact Hnf | apply closing_final; exact Hnf]
      | first
          [ left; reflexivity
          | right; eexists; split; [reflexivity|];
            first
              [ left; reflexivity
              | right; eexists; split; [reflexivity | congruence] ] ] ] ].

(** One turn of the loop either sends no final event, or sends it last
    but for [done] and leaves the loop; if it leaves with an error that
    is no cancellation, the last send has failed. *)
Lemma iteration_final m s r s' :
  failures_persist (send_result W) ->
  nofinal (events (log s)) ->
  iteration W m s = (r, s') ->
  nofinal (events (log s')) \/
  (closing (events (log s')) /\
   (r = Val Break \/
    exists e, r = Raise e /\ (e = CancelledError \/ last_send_failed s'))).
Proof.
  intros Hst Hnf.
  unfold iteration, try_except, body, bind, receive_text, lift, data_get,
    data_item, call_add_audio, bind, tell, method, record, get_result,
    send_json, ret, raise, last_send_failed.
  intros H. destruct m as [[msg|data]|e]; simpl in H;
    repeat (break_match_in H; subst; simpl in H;
            try discriminate;
            try delivered_after_failure Hst);
    injection H as Hr Hs; subst r s'; simpl; settle_turn Hnf.
Qed.

Lemma loop_final inbox s r s' :
  failures_persist (send_result W) ->
  nofinal (events (log s)) ->
  loop W inbox s = (r, s') ->
  nofinal (events (log s')) \/
  (closing (events (log s')) /\
   (r = Val tt \/
    exists e, r = Raise e /\ (e = CancelledError \/ last_send_failed s'))).
Proof.
  intros Hst. revert s.
  induction inbox as [|m rest IH]; intros s Hnf; simpl.
  - intros H; inversion H; subst. left; exact Hnf.
  - unfold bind. destruct (iteration W m s) as [c s1] eqn:Hi.
    destruct (iteration_final _ _ _ _ Hst Hnf Hi) as [H1|[H1 [Hc|(e & Hc & He)]]];
      subst.
    + destruct c as [[|]|e|]; intros H; try (inversion H; subst; left; exact H1).
      eapply IH; [exact H1 | exact H].
    + intros H; inversion H; subst. right; auto.
    + intros H; inversion H; subst. right; split; [exact H1|]. right; eauto.
Qed.

Lemma setup_final model s r s' :
  nofinal (events (log s)) ->
  setup W model s = (r, s') ->
  nofinal (events (log s')).
Proof.
  intros Hnf.
  unfold setup, bind, call_transcribe_stream, call_enter, bind, method, tell,
    record, send_json.
  intros H.
  repeat (break_match_in H; subst; simpl in H; try discriminate);
    injection H as Hr Hs; subst r s'; simpl; rewrite ?events_app; simpl;
    rewrite ?app_nil_r; repeat (apply nofinal_snoc; [|reflexivity]); exact Hnf.
Qed.

Lemma nofinal_no_final evs l1 ev l2 :
  nofinal evs -> evs = l1 ++ ev :: l2 -> is_final ev = true -> False.
Proof.
  intros H Heq He. subst evs. apply Forall_app in H. destruct H as [_ H].
  inversion H; subst. congruence.
Qed.

Lemma final_is_transcription ev : is_final ev = true -> is_transcription ev = true.
Proof. unfold is_final. intros H. apply andb_true_iff in H. tauto. Qed.

Lemma closing_unique evs l1 ev l2 :
  closing evs -> evs = l1 ++ ev :: l2 -> is_final ev = true ->
  nofinal l1 /\
  Forall (fun e => is_transcription e = false) l2 /\
  (l2 = [] \/ l2 = [done_event]).
Proof.
  intros (pre & t & tail & -> & Hpre & Htail). revert l1.
  induction pre as [|p pre IH]; intros l1 Heq Hf.
  - destruct l1 as [|a l1]; simpl in Heq; injection Heq as Ha Htl.
    + subst. split; [constructor|]. split; [|exact Htail].
      destruct Htail as [Ht|Ht]; rewrite Ht; repeat constructor.
    + exfalso. destruct Htail as [Ht|Ht]; rewrite Ht in Htl.
      * destruct l1; discriminate.
      * destruct l1 as [|b l1]; simpl in Htl; injection Htl as Hb Htl; subst;
          [discriminate | destruct l1; discriminate].
  - destruct l1 as [|a l1]; simpl in Heq; injection Heq as Ha Htl.
    + subst. inversion Hpre; subst. congruence.
    + subst. inversion Hpre; subst.
      destruct (IH H2 l1 Htl Hf) as (Hl1 & Hl2 & Ht).
      split; [constructor; assumption | auto].
Qed.


End Properties.

(** ** The theorems at work on the test doubles *)

Lemma always_delivers_reliable : reliable (send_result Double.W0).
Proof. intros n; reflexivity. Qed.

Lemma release_exactly_once_witness :
  let rs := Double.run Double.lossy (Some [inr "hi"]) [Double.audio Double.one_sample] in
  terminated (fst rs) /\ acquired (log (snd rs)) /\ releases (log (snd rs)) = 1.
Proof.
  cbv zeta.
  assert (Ht : terminated
                 (fst (Double.run Double.lossy (Some [inr "hi"])
                         [Double.audio Double.one_sample])))
    by (vm_compute; discriminate).
  assert (Ha : acquired
                 (log (snd (Double.run Double.lossy (Some [inr "hi"])
                              [Double.audio Double.one_sample]))))
    by (vm_compute; auto).
  refine (conj Ht (conj Ha _)).
  exact (release_exactly_once (Double.env Double.lossy) (Some [inr "hi"])
           [Double.audio Double.one_sample] _ _ (surjective_pairing _) Ht Ha).
Defined.

(** The three ways out of a session: [end], a disconnect, an error that
    leaves the loop. *)
Example release_on_each_exit_path :
  let released inbox send :=
    let rs := Double.run send (Some [inr "hi"]) inbox in
    (fst rs, releases (log (snd rs))) in
  released [Double.audio Double.one_sample; Double.end_] Double.always_delivers
    = (Val tt, 1) /\
  released [Double.audio Double.one_sample; RecvRaises (WebSocketDisconnect "1001")]
    Double.always_delivers = (Val tt, 1) /\
  released [Double.audio Double.one_sample] Double.lossy
    = (Raise (Exception "connection lost"), 1) /\
  released [Double.audio Double.one_sample; RecvRaises CancelledError]
    Double.always_delivers = (Raise CancelledError, 1).
Proof. repeat split. Qed.

Lemma no_model_error_and_stop_witness :
  let rs := Double.run Double.always_delivers None
              [Double.audio Double.one_sample; Double.end_] in
  terminated (fst rs) /\
  log (snd rs) = [Sent (error_event "Model not loaded"); Closed] /\
  events (log (snd rs)) = [error_event "Model not loaded"] /\
  ~ acquired (log (snd rs)) /\
  ingested (log (snd rs)) = [] /\
  transcriber (snd rs) = None.
Proof.
  cbv zeta.
  apply (no_model_error_and_stop Double.W0
           [Double.audio Double.one_sample; Double.end_]);
    [reflexivity | apply surjective_pairing].
Defined.

Lemma disconnect_terminates_witness :
  let s1 := snd (Double.run Double.always_delivers (Some [inr "hi"; inr "hi there"])
                   [Double.audio Double.one_sample]) in
  exists s2,
    Double.run Double.always_delivers (Some [inr "hi"; inr "hi there"])
      ([Double.audio Double.one_sample]
         ++ RecvRaises (WebSocketDisconnect "1001")
         :: [Double.audio Double.one_sample; Double.end_]) = (Val tt, s2) /\
    log s2 = log s1 ++ [Released; Closed] /\
    sends s2 = sends s1.
Proof.
  cbv zeta.
  apply (disconnect_terminates Double.W0 [inr "hi"; inr "hi there"]
           [Double.audio Double.one_sample]
           [Double.audio Double.one_sample; Double.end_] "1001").
  reflexivity.
Defined.

Lemma unknown_type_is_ignored_witness :
  let model : Model Double.W0 := [inr "hi"] in
  let ping := [("type", JStr "ping")] in
  let s1 := snd (session Double.W0 (Some model) [Double.audio Double.one_sample]) in
  session Double.W0 (Some model)
    ([Double.audio Double.one_sample] ++ [Text (inr (JObj ping))]) = (Blocked, s1) /\
  session Double.W0 (Some model)
    ([Double.audio Double.one_sample] ++ Text (inr (JObj ping)) :: [Double.end_]) =
  session Double.W0 (Some model) ([Double.audio Double.one_sample] ++ [Double.end_]).
Proof.
  cbv zeta.
  apply (unknown_type_is_ignored Double.W0 [inr "hi"]
           [Double.audio Double.one_sample] [Double.end_] [("type", JStr "ping")]);
    [reflexivity | simpl; discriminate | simpl; discriminate].
Defined.

(** C10 as stated fails: a message that is valid JSON but no object has no
    ["type"] at all, and the handler answers it with an error event. *)
Lemma non_object_message_gets_error :
  get "type" (JArr []) = None /\
  events (log (snd (Double.run Double.always_delivers (Some []) [Text (inr (JArr []))])))
  = [ready_event 16000; error_event "'list' object has no attribute 'get'"].
Proof. split; reflexivity. Qed.

Lemma end_sends_final_when_text_witness :
  let model : Model Double.W0 := [inr spaced_text] in
  let s1 := snd (session Double.W0 (Some model) [Double.audio Double.one_sample]) in
  reliable (send_result Double.W0) /\
  session Double.W0 (Some model) [Double.audio Double.one_sample] = (Blocked, s1) /\
  get "type" Double.end_message = Some (JStr "end") /\
  exists e s2,
    transcriber s1 = Some e /\
    session Double.W0 (Some model)
      ([Double.audio Double.one_sample] ++ Double.end_ :: []) = (Val tt, s2) /\
    events (log s2) = events (log s1) ++
      match result Double.W0 e with
      | Some t =>
          if truthy t then [transcription_event (strip t) true; done_event]
          else [done_event]
      | None => [done_event]
      end /\
    ([Double.audio Double.one_sample] = [] ->
     result Double.W0 e = None \/ result Double.W0 e = Some "" ->
     events (log s2) = [ready_event (model_sample_rate Double.W0 model); done_event]).
Proof.
  cbv zeta.
  split; [exact always_delivers_reliable|].
  split; [reflexivity|]. split; [reflexivity|].
  apply (end_sends_final_when_text Double.W0 [inr spaced_text]
           [Double.audio Double.one_sample] [] Double.end_message);
    [exact always_delivers_reliable | reflexivity | reflexivity].
Defined.

(** C1 as stated fails: a session that is opened and ended at once gets
    [ready] and [done], and no final event. *)
Lemma end_without_text_sends_no_final :
  let evs := events (log (snd (Double.run Double.always_delivers (Some [])
                                 [Double.end_]))) in
  evs = [ready_event 16000; done_event] /\
  evs <> [ready_event 16000; transcription_event "" true; done_event] /\
  Forall (fun ev => is_final ev = false) evs.
Proof.
  cbv zeta. split; [reflexivity|]. split; [discriminate|].
  repeat constructor.
Qed.

Lemma partial_iff_text_nonempty_witness :
  let model : Model Double.W0 := [inr spaced_text] in
  let s1 := snd (session Double.W0 (Some model) []) in
  let e' := Double.mkE [] spaced_text in
  exists s2,
    session Double.W0 (Some model)
      ([] ++ [Text (inr (Double.audio_message Double.one_sample))]) = (Blocked, s2) /\
    transcriber s2 = Some e' /\
    ingested (log s2) = ingested (log s1) ++ [[1065353216%N]] /\
    events (log s2) = events (log s1) ++
      match result Double.W0 e' with
      | Some t =>
          if truthy (strip t) then [transcription_event (strip t) false] else []
      | None => []
      end.
Proof.
  cbv zeta.
  apply (partial_iff_text_nonempty Double.W0 [inr spaced_text] []
           (Double.audio_message Double.one_sample) [1065353216%N]
           (Double.mkE [inr spaced_text] "") (Double.mkE [] spaced_text));
    [exact always_delivers_reliable | reflexivity | reflexivity | | reflexivity].
  split; [reflexivity|].
  exists (JStr Double.one_sample), [0%N; 0%N; 128%N; 63%N].
  repeat split.
Defined.

(** C2 as stated fails: when the engine shows the same text after two
    chunks, the same partial event is sent twice in a row. *)
Lemma repeated_text_is_sent_again :
  events (log (snd (Double.run Double.always_delivers (Some [inr "hello"; inr "hello"])
                      [Double.audio Double.one_sample; Double.audio Double.one_sample])))
  = [ready_event 16000;
     transcription_event "hello" false;
     transcription_event "hello" false].
Proof. reflexivity. Qed.

Lemma chunk_error_is_not_fatal_witness :
  let model : Model Double.W0 := [inr "hello"] in
  let s1 := snd (session Double.W0 (Some model) []) in
  let bad := Double.audio_message Double.two_bytes in
  exists s2,
    events (log s2) = events (log s1) ++
      [error_event "buffer size must be a multiple of element size"] /\
    session Double.W0 (Some model) ([] ++ [Text (inr bad)]) = (Blocked, s2) /\
    forall inbox2,
      session Double.W0 (Some model) ([] ++ Text (inr bad) :: inbox2) =
      resume Double.W0 inbox2 s2.
Proof.
  cbv zeta.
  apply (chunk_error_is_not_fatal Double.W0 [inr "hello"] []
           (Double.audio_message Double.two_bytes)
           "buffer size must be a multiple of element size"
           (snd (session Double.W0 (Some [inr "hello"]) []))
           (snd (session Double.W0 (Some [inr "hello"]) [])));
    [exact always_delivers_reliable | reflexivity | reflexivity | reflexivity].
Defined.

(** A chunk that does not decode, then a good one, then [end]. *)
Example bad_chunk_then_good_chunk :
  Double.run Double.always_delivers (Some [inr "hello"])
    [Double.audio Double.two_bytes; Double.audio Double.one_sample; Double.end_]
  = (Val tt,
     mkState Double.W0 (Some (Double.mkE [] "hello")) 5
       [Acquired;
        Sent (ready_event 16000);
        Sent (error_event "buffer size must be a multiple of element size");
        AddAudio [1065353216%N];
        Sent (transcription_event "hello" false);
        Sent (transcription_event "hello" true);
        Sent done_event;
        Released;
        Closed]).
Proof. reflexivity. Qed.

Lemma three_chunks_two_partials_witness :
  let model : Model Double.W0 := [inr ""; inr "hello"; inr "hello world"] in
  let s0 := snd (session Double.W0 (Some model) []) in
  let d := Double.audio_message Double.one_sample in
  exists s3,
    session Double.W0 (Some model)
      ([] ++ [Text (inr d); Text (inr d); Text (inr d)]) = (Blocked, s3) /\
    ingested (log s3) =
      ingested (log s0) ++ [[1065353216%N]; [1065353216%N]; [1065353216%N]] /\
    events (log s3) = events (log s0) ++
      [transcription_event "hello" false; transcription_event "hello world" false].
Proof.
  cbv zeta.
  assert (Hc : audio_chunk Double.W0 (Double.audio_message Double.one_sample)
                 [1065353216%N]).
  { split; [reflexivity|].
    exists (JStr Double.one_sample), [0%N; 0%N; 128%N; 63%N]. repeat split. }
  apply (three_chunks_two_partials Double.W0
           [inr ""; inr "hello"; inr "hello world"] []
           (Double.audio_message Double.one_sample)
           (Double.audio_message Double.one_sample)
           (Double.audio_message Double.one_sample)
           [1065353216%N] [1065353216%N] [1065353216%N]
           (Double.mkE [inr ""; inr "hello"; inr "hello world"] "")
           (Double.mkE [inr "hello"; inr "hello world"] "")
           (Double.mkE [inr "hello world"] "hello")
           (Double.mkE [] "hello world"));
    first [exact always_delivers_reliable | exact Hc | reflexivity].
Defined.

Lemma ready_is_first_witness :
  let rs := Double.run Double.always_delivers (Some [inr "hi"])
              [Double.audio Double.one_sample; Double.end_] in
  exists ev rest,
    events (log (snd rs)) = ev :: rest /\
    ev = ready_event 16000 /\
    get "type" ev = Some (JStr "ready") /\
    get "sample_rate" ev = Some (JInt 16000) /\
    keys ev = ["type"; "sample_rate"; "message"].
Proof.
  cbv zeta.
  apply (ready_is_first Double.W0 [inr "hi"] (Double.mkE [inr "hi"] "")
           [Double.audio Double.one_sample; Double.end_]
           (fst (Double.run Double.always_delivers (Some [inr "hi"])
                   [Double.audio Double.one_sample; Double.end_])));
    [reflexivity | reflexivity | reflexivity | apply surjective_pairing].
Defined.

(** C7 as stated fails: the ready event has the fields [type],
    [sample_rate] and [message]; the context window the transcriber was
    created with, (256, 256), is nowhere in it. *)
Lemma ready_event_has_no_context_window :
  let evs := events (log (snd (Double.run Double.always_delivers (Some []) []))) in
  evs = [ready_event 16000] /\
  keys (ready_event 16000) = ["type"; "sample_rate"; "message"] /\
  carries_context_window context_size (ready_event 16000) = false.
Proof. cbv zeta. repeat split. Qed.

Lemma drops_at_persist k : failures_persist (Double.drops_at k).
Proof.
  intros n Hn. unfold Double.drops_at in *.
  destruct (Nat.ltb_spec n k) as [Hlt|Hge]; [congruence|].
  destruct (Nat.ltb_spec (S n) k) as [Hlt'|Hge']; [lia|].
  destruct (Nat.eqb_spec (S n) k) as [Heq|Hne]; [lia | discriminate].
Qed.


(** The usual case: the final event is followed by [done]. *)
Example final_then_done :
  events (log (snd (Double.run Double.always_delivers (Some [inr "hi"])
                      [Double.audio Double.one_sample; Double.end_;
                       Double.audio Double.one_sample; Double.end_])))
  = [ready_event 16000;
     transcription_event "hi" false;
     transcription_event "hi" true;
     done_event].
Proof. reflexivity. Qed.


(** ** Further properties of the handlers *)

(** *** [str.strip()] *)

Lemma decode_head_point l :
  decode l = match head_point l with
             | Some (p, r) => p :: decode r
             | None => []
             end.
Proof.
  destruct l as [|b1 r1]; [reflexivity|].
  cbn [decode head_point].
  destruct (utf8_accept [b1]); [reflexivity|].
  destruct r1 as [|b2 r2]; [reflexivity|].
  destruct (utf8_accept [b1; b2]); [reflexivity|].
  destruct r2 as [|b3 r3]; [reflexivity|].
  destruct (utf8_accept [b1; b2; b3]); [reflexivity|].
  destruct r3 as [|b4 r4]; [reflexivity|].
  destruct (utf8_accept [b1; b2; b3; b4]); reflexivity.
Qed.

Lemma bytes_eqb_eq l1 l2 : bytes_eqb l1 l2 = true -> l1 = l2.
Proof.
  revert l2; induction l1 as [|a l1 IH]; intros [|b l2] H; simpl in H;
    try discriminate; [reflexivity|].
  apply andb_true_iff in H as [Hab H].
  apply Ascii.eqb_eq in Hab. subst b. f_equal. auto.
Qed.

Lemma accept_utf8 bs c : utf8_accept bs = Some c -> utf8 c = bs.
Proof.
  unfold utf8_accept. destruct (scalar (utf8_value bs) && bytes_eqb (utf8 (utf8_value bs)) bs) eqn:H;
    [|discriminate].
  intros [= <-]. apply andb_true_iff in H as [_ H]. now apply bytes_eqb_eq.
Qed.

Lemma head_point_encode l p r : head_point l = Some (p, r) -> l = encode1 p ++ r.
Proof.
  destruct l as [|b1 [|b2 [|b3 [|b4 r4]]]]; cbn [head_point]; try discriminate;
    repeat match goal with
           | |- context [match utf8_accept ?bs with _ => _ end] =>
               let H := fresh "H" in
               destruct (utf8_accept bs) eqn:H; [apply accept_utf8 in H|]
           end;
    intros [= <- <-]; cbn [encode1]; try reflexivity;
    match goal with H : utf8 _ = _ |- _ => rewrite H; reflexivity end.
Qed.

Lemma head_point_prefix l p u v :
  head_point l = Some (p, u ++ v) -> head_point (encode1 p ++ u) = Some (p, u).
Proof.
  destruct l as [|b1 [|b2 [|b3 [|b4 r4]]]]; cbn [head_point]; try discriminate;
    repeat match goal with
           | |- context [match utf8_accept ?bs with _ => _ end] =>
               let H := fresh "H" in
               destruct (utf8_accept bs) eqn:H
           end;
    intros [= <- Hr];
    try (match goal with H : utf8_accept _ = Some _ |- _ =>
           cbn [encode1]; rewrite (accept_utf8 _ _ H); cbn [app head_point];
           repeat match goal with H' : utf8_accept _ = _ |- _ => rewrite H' end;
           reflexivity end);
    cbn [encode1 app];
    destruct u as [|c2 [|c3 [|c4 u4]]]; cbn [app] in Hr;
    try discriminate Hr;
    repeat match goal with
           | H : _ :: _ = _ :: _ |- _ => inversion H; clear H; subst
           end;
    cbn [head_point];
    repeat match goal with H' : utf8_accept _ = _ |- _ => rewrite H' end;
    reflexivity.
Qed.

Lemma utf8_nonempty c : utf8 c <> [].
Proof.
  unfold utf8.
  destruct (c <? 128)%N; [discriminate|].
  destruct (c <? 2048)%N; [discriminate|].
  destruct (c <? 65536)%N; discriminate.
Qed.

Lemma head_point_shorter l p r : head_point l = Some (p, r) -> (List.length r < List.length l)%nat.
Proof.
  intros H. apply head_point_encode in H. subst l. rewrite length_app.
  destruct p as [c|b]; cbn [encode1].
  - pose proof (utf8_nonempty c). destruct (utf8 c); [congruence | simpl; lia].
  - simpl. lia.
Qed.

Lemma encode_decode l : encode (decode l) = l.
Proof.
  remember (List.length l) as n eqn:Hn.
  revert l Hn. induction n as [n IH] using lt_wf_ind. intros l ->.
  rewrite decode_head_point. destruct (head_point l) as [[p r]|] eqn:F.
  - cbn [encode flat_map]. fold (encode (decode r)).
    rewrite (IH (List.length r) (head_point_shorter _ _ _ F) r eq_refl).
    symmetry. now apply head_point_encode.
  - destruct l as [|b1 [|b2 [|b3 [|b4 r4]]]]; [reflexivity | ..]; cbn [head_point] in F;
      repeat match type of F with
             | context [match utf8_accept ?bs with _ => _ end] => destruct (utf8_accept bs)
             end; discriminate.
Qed.

Lemma well_formed_decode l : well_formed (decode l).
Proof. unfold well_formed. now rewrite encode_decode. Qed.

Lemma well_formed_cons p l :
  well_formed (p :: l) -> well_formed l /\ head_point (encode1 p ++ encode l) = Some (p, encode l).
Proof.
  unfold well_formed. cbn [encode flat_map]. fold (encode l).
  rewrite decode_head_point.
  destruct (head_point (encode1 p ++ encode l)) as [[q r]|] eqn:F; [|discriminate].
  intros [= -> Hd]. apply head_point_encode in F as E.
  apply app_inv_head in E. subst r. now split.
Qed.

Lemma encode_app l1 l2 : encode (l1 ++ l2) = encode l1 ++ encode l2.
Proof. apply flat_map_app. Qed.

Lemma well_formed_app_l l1 l2 : well_formed (l1 ++ l2) -> well_formed l1.
Proof.
  induction l1 as [|p l1 IH]; [reflexivity|].
  cbn [app]. intros H. apply well_formed_cons in H as [H F].
  rewrite encode_app in F. apply head_point_prefix in F.
  unfold well_formed. cbn [encode flat_map]. fold (encode l1).
  rewrite decode_head_point, F. f_equal. now apply IH.
Qed.

Lemma well_formed_app_r l1 l2 : well_formed (l1 ++ l2) -> well_formed l2.
Proof.
  induction l1 as [|p l1 IH]; [easy|].
  cbn [app]. intros H. apply well_formed_cons in H as [H _]. auto.
Qed.

Lemma lstrip_suffix l : exists a, l = a ++ lstrip l.
Proof.
  induction l as [|p l [a IH]]; [now exists []|].
  cbn [lstrip]. destruct (isspace p).
  - exists (p :: a). cbn [app]. now f_equal.
  - now exists [].
Qed.

Lemma rstrip_prefix l : exists b, l = rstrip l ++ b.
Proof.
  unfold rstrip. destruct (lstrip_suffix (rev l)) as [a H].
  exists (rev a). rewrite <- rev_app_distr, <- H. now rewrite rev_involutive.
Qed.

Lemma lstrip_head p l : lstrip l = p :: l -> False.
Proof.
  intros H. destruct (lstrip_suffix l) as [a E].
  apply (f_equal (@List.length _)) in E. rewrite H, length_app in E. simpl in E. lia.
Qed.

Lemma lstrip_fixed l : lstrip l = l <-> match l with [] => True | p :: _ => isspace p = false end.
Proof.
  destruct l as [|p l]; [easy|]. cbn [lstrip].
  destruct (isspace p); [|easy].
  split; [|discriminate]. intros H. now apply lstrip_head in H.
Qed.

Lemma lstrip_idempotent l : lstrip (lstrip l) = lstrip l.
Proof.
  induction l as [|p l IH]; [reflexivity|].
  cbn [lstrip]. destruct (isspace p) eqn:E; [exact IH|].
  cbn [lstrip]. now rewrite E.
Qed.

Lemma rstrip_idempotent l : rstrip (rstrip l) = rstrip l.
Proof. unfold rstrip. now rewrite rev_involutive, lstrip_idempotent. Qed.

Lemma lstrip_rstrip l : lstrip l = l -> lstrip (rstrip l) = rstrip l.
Proof.
  intros H. apply lstrip_fixed. apply lstrip_fixed in H.
  destruct (rstrip_prefix l) as [b E].
  destruct (rstrip l) as [|p r]; [exact I|].
  rewrite E in H. exact H.
Qed.

Lemma points_strip s : points (strip s) = rstrip (lstrip (points s)).
Proof.
  unfold strip, points at 1. rewrite list_ascii_of_string_of_list_ascii.
  pose proof (well_formed_decode (list_ascii_of_string s)) as H. fold (points s) in H.
  destruct (lstrip_suffix (points s)) as [a Ea].
  destruct (rstrip_prefix (lstrip (points s))) as [b Eb].
  rewrite Ea, Eb in H. apply well_formed_app_r, well_formed_app_l in H. exact H.
Qed.

Lemma strip_idempotent s : strip (strip s) = strip s.
Proof.
  unfold strip at 1. rewrite points_strip.
  rewrite (lstrip_rstrip _ (lstrip_idempotent _)), rstrip_idempotent.
  reflexivity.
Qed.

(** A text that [strip] leaves as it is has no white space at either
    end. *)
Lemma strip_fixed s :
  strip s = s -> lstrip (points s) = points s /\ rstrip (points s) = points s.
Proof.
  intros H. pose proof (points_strip s) as E. rewrite H in E.
  split.
  - rewrite E at 1. rewrite (lstrip_rstrip _ (lstrip_idempotent _)).
    symmetry; exact E.
  - rewrite E at 1. rewrite rstrip_idempotent. symmetry; exact E.
Qed.

(** White space beyond ASCII goes as a blank does, white space inside
    stays, and a character that merely shares bytes with U+00A0 (here
    U+2020) stays as well. *)
Example strip_unicode_white_space :
  strip spaced_text = "hi there" /\
  strip nbsp = "" /\
  strip em_space = "" /\
  strip next_line = "" /\
  strip (String (octet 160) "hi") = "hi" /\
  strip ("a" ++ nbsp ++ "b") = ("a" ++ nbsp ++ "b")%string /\
  strip (String (octet 226) (String (octet 128) (String (octet 160) ""))) =
    String (octet 226) (String (octet 128) (String (octet 160) "")).
Proof. repeat split; vm_compute; reflexivity. Qed.

(** A text of white space alone brings no partial event, and on [end] a
    final event with the empty text. *)
Example blank_text_in_a_session :
  events (log (snd (Double.run Double.always_delivers
                      (Some [inr nbsp; inr spaced_text; inr em_space])
                      [Double.audio Double.one_sample; Double.audio Double.one_sample;
                       Double.audio Double.one_sample; Double.end_])))
  = [ready_event 16000;
     transcription_event "hi there" false;
     transcription_event "" true;
     done_event].
Proof. vm_compute. reflexivity. Qed.

Lemma truthy_nonempty s : truthy s = true -> s <> "".
Proof. destruct s; [discriminate | intros _; discriminate]. Qed.

Section Coverage.

Variable W : Env.

Implicit Types (s : state W) (inbox : list inbound).

Ltac split_match :=
  match goal with
  | |- context [match ?x with _ => _ end] =>
      lazymatch x with
      | context [match _ with _ => _ end] => fail
      | _ => destruct x eqn:?
      end
  end.

Ltac split_match_in H :=
  match type of H with
  | context [match ?x with _ => _ end] =>
      lazymatch x with
      | context [match _ with _ => _ end] => fail
      | _ => destruct x eqn:?
      end
  end.

Ltac unfold_turn :=
  unfold iteration, try_except, body, bind, receive_text, lift, data_get,
    data_item, call_add_audio, bind, tell, method, record, get_result,
    send_json, ret, raise.

(** The stages of a call of the handler with a model: the set-up, the
    loop, the outer [except], the [finally]. *)
Lemma session_stages model inbox r s :
  session W (Some model) inbox = (r, s) ->
  exists r0 s0 r1 s1 r2 s2,
    setup W model (initial W) = (r0, s0) /\
    match r0 with
    | Val _ => loop W inbox s0
    | Raise e => (Raise e, s0)
    | Blocked => (Blocked, s0)
    end = (r1, s1) /\
    match r1 with
    | Val a => (Val a, s1)
    | Raise e =>
        match on_exception W e with
        | Some k => k s1
        | None => (Raise e, s1)
        end
    | Blocked => (Blocked, s1)
    end = (r2, s2) /\
    ((r2 = Blocked /\ r = Blocked /\ s = s2) \/
     (r2 <> Blocked /\ r = r2 /\ teardown W s2 = (Val tt, s))).
Proof.
  unfold session. rewrite realtime_setup.
  unfold try_finally, try_except, bind.
  destruct (setup W model (initial W)) as [r0 s0] eqn:H0.
  destruct (match r0 with
            | Val _ => loop W inbox s0
            | Raise e => (Raise e, s0)
            | Blocked => (Blocked, s0)
            end) as [r1 s1] eqn:H1.
  destruct (match r1 with
            | Val a => (Val a, s1)
            | Raise e =>
                match on_exception W e with
                | Some k => k s1
                | None => (Raise e, s1)
                end
            | Blocked => (Blocked, s1)
            end) as [r2 s2] eqn:H2.
  intros H. exists r0, s0, r1, s1, r2, s2.
  split; [reflexivity|]. split; [exact H1|]. split; [exact H2|].
  destruct (teardown_spec W s2) as (s3 & Ht & _ & _).
  destruct r2 as [[]|e|]; rewrite ?Ht in H; inversion H; subst.
  - right. split; [discriminate|]. split; [reflexivity | exact Ht].
  - right. split; [discriminate|]. split; [reflexivity | exact Ht].
  - left. auto.
Qed.

(** *** The resources of a session *)

Lemma closes_app (l1 l2 : list (action (Samples W))) :
  closes (l1 ++ l2) = closes l1 + closes l2.
Proof.
  induction l1 as [|a l1 IH]; simpl; [reflexivity|].
  destruct a; simpl; rewrite IH; reflexivity.
Qed.

Lemma stable_untouched : stable (@untouched W).
Proof.
  split; unfold untouched, record; simpl; intros;
    rewrite ?releases_app, ?closes_app; simpl; lia.
Qed.

Lemma stable_live : stable (@live W).
Proof.
  split; unfold live, untouched, acquired, record; simpl;
    intros; rewrite ?releases_app, ?closes_app; simpl;
    repeat split; try tauto; try lia; try discriminate;
    apply in_or_app; tauto.
Qed.

Lemma setup_untouched model s r s' :
  untouched s -> setup W model s = (r, s') -> untouched s'.
Proof.
  unfold setup, bind, call_transcribe_stream, call_enter, bind, method, tell,
    record, send_json, untouched.
  intros Hu H.
  repeat (split_match_in H; simpl in H; try discriminate);
    injection H as Hr Hs; subst r s'; simpl;
    rewrite ?releases_app, ?closes_app; simpl; lia.
Qed.

Lemma setup_live model s0 :
  setup W model (initial W) = (Val tt, s0) -> live s0.
Proof.
  unfold setup, bind, call_transcribe_stream, call_enter, bind, method, tell,
    record, send_json, live, untouched, acquired.
  intros H. simpl in H.
  repeat (split_match_in H; simpl in H; try discriminate);
    injection H as Hs; subst s0; simpl;
    repeat split; auto; discriminate.
Qed.

(** X1.  While a session with a model waits for a message, its
    transcriber is bound and entered, and neither the transcriber nor the
    socket has been released or closed. *)
Theorem waiting_session_is_live model inbox s :
  session W (Some model) inbox = (Blocked, s) ->
  (exists e, transcriber s = Some e) /\
  acquired (log s) /\
  releases (log s) = 0 /\
  closes (log s) = 0.
Proof.
  intros H. destruct (session_blocked W _ _ _ H) as (s0 & Hs & Hl).
  pose proof (preserves_loop W live stable_live inbox s0 (setup_live _ _ Hs)) as Hp.
  rewrite Hl in Hp. simpl in Hp. destruct Hp as (Hb & Ha & Hr & Hc).
  repeat split; auto.
  destruct (transcriber s) as [e|]; [eauto | congruence].
Qed.

(** X2.  A call of the handler with a model that is over has closed the
    socket exactly once, as its last act, just after the release of the
    transcriber if there was one: no event is sent and no audio is given
    to the engine after the release. *)
Theorem teardown_comes_last model inbox r s :
  session W (Some model) inbox = (r, s) ->
  terminated r ->
  closes (log s) = 1 /\
  exists pre tail,
    log s = pre ++ tail /\
    (tail = [Closed] \/ tail = [Released; Closed]) /\
    releases pre = 0 /\
    closes pre = 0.
Proof.
  intros H Hterm.
  destruct (session_stages _ _ _ _ H)
    as (r0 & s0 & r1 & s1 & r2 & s2 & H0 & H1 & H2 & [(_ & Hb & _)|(_ & _ & Ht)]);
    [contradiction|].
  assert (U0 : untouched s0).
  { eapply setup_untouched; [|exact H0]. split; reflexivity. }
  assert (U1 : untouched s1).
  { destruct r0 as [[]|e|]; try (inversion H1; subst; exact U0).
    pose proof (preserves_loop W untouched stable_untouched inbox s0 U0) as Hp.
    rewrite H1 in Hp. exact Hp. }
  assert (U2 : untouched s2).
  { destruct r1 as [[]|e|]; try (inversion H2; subst; exact U1).
    destruct (on_exception W e) as [k|] eqn:Hk; [|inversion H2; subst; exact U1].
    pose proof (preserves_on_exception W untouched stable_untouched e k Hk s1 U1) as Hp.
    rewrite H2 in Hp. exact Hp. }
  destruct U2 as [Hr Hc].
  destruct (teardown_spec W s2) as (s3 & Ht' & _ & Hl).
  rewrite Ht in Ht'. inversion Ht'; subst s3.
  split.
  - rewrite Hl, !closes_app, Hc. destruct (transcriber s2); reflexivity.
  - exists (log s2). eexists. split; [exact Hl|].
    split; [|split; assumption].
    destruct (transcriber s2); [right | left]; reflexivity.
Qed.

(** *** What reaches the engine *)

Lemma iteration_ingested m s r s' :
  iteration W m s = (r, s') ->
  ingested (log s') = ingested (log s) ++ chunk_of W m.
Proof.
  unfold_turn. unfold chunk_of.
  destruct m as [[msg|data]|e]; simpl;
    repeat (split_match; simpl; try discriminate);
    intros H; injection H as Hr Hs; subst r s'; simpl;
    rewrite ?ingested_app; simpl; rewrite ?app_nil_r; reflexivity.
Qed.

Lemma loop_ingested inbox s r s' :
  loop W inbox s = (r, s') ->
  exists k,
    ingested (log s') = ingested (log s) ++ flat_map (chunk_of W) (firstn k inbox) /\
    (r = Blocked -> k = List.length inbox).
Proof.
  revert s. induction inbox as [|m rest IH]; intros s; simpl.
  - intros H; inversion H; subst. exists 0. simpl. rewrite app_nil_r. auto.
  - unfold bind. destruct (iteration W m s) as [c s1] eqn:Hi.
    pose proof (iteration_ingested _ _ _ _ Hi) as Hm.
    pose proof (never_blocks_iteration W m s) as Hn. rewrite Hi in Hn. simpl in Hn.
    destruct c as [[|]|e|]; [| | |congruence].
    + intros H. destruct (IH _ H) as (k & Hk & Hb). exists (S k). simpl.
      rewrite Hk, Hm, <- app_assoc. split; [reflexivity|].
      intros Hr. rewrite (Hb Hr). reflexivity.
    + intros H; inversion H; subst. exists 1. simpl.
      rewrite app_nil_r. split; [exact Hm | discriminate].
    + intros H; inversion H; subst. exists 1. simpl.
      rewrite app_nil_r. split; [exact Hm | discriminate].
Qed.

Lemma setup_ingested model s r s' :
  setup W model s = (r, s') -> ingested (log s') = ingested (log s).
Proof.
  unfold setup, bind, call_transcribe_stream, call_enter, bind, method, tell,
    record, send_json.
  intros H.
  repeat (split_match_in H; simpl in H; try discriminate);
    injection H as Hr Hs; subst r s'; simpl;
    rewrite ?ingested_app; simpl; rewrite ?app_nil_r; reflexivity.
Qed.

Lemma on_exception_ingested e k s r s' :
  on_exception W e = Some k -> k s = (r, s') ->
  ingested (log s') = ingested (log s).
Proof.
  destruct e; simpl; intros Hk; inversion Hk; subst; unfold send_json;
    destruct (send_result W (sends s)); intros H; inversion H; subst; simpl;
    rewrite ?ingested_app; simpl; rewrite ?app_nil_r; reflexivity.
Qed.

Lemma on_exception_not_blocked e k s :
  on_exception W e = Some k -> fst (k s) <> Blocked.
Proof.
  destruct e; simpl; intros Hk; inversion Hk; subst; apply never_blocks_send_json.
Qed.

Lemma teardown_ingested s s' :
  teardown W s = (Val tt, s') -> ingested (log s') = ingested (log s).
Proof.
  intros H. destruct (teardown_spec W s) as (s2 & Ht & _ & Hl).
  rewrite Ht in H. inversion H; subst. rewrite Hl, !ingested_app.
  destruct (transcriber s); simpl; apply app_nil_r.
Qed.

(** X3.  What the handler gives to the engine is, in the order received,
    the decoded samples of the audio messages it has handled, and nothing
    else: the chunks of a first part of the inbox, of the whole inbox
    when the session is waiting for more. *)
Theorem chunks_are_ingested_in_order model inbox r s :
  session W (Some model) inbox = (r, s) ->
  exists k,
    ingested (log s) = flat_map (chunk_of W) (firstn k inbox) /\
    (r = Blocked -> k = List.length inbox).
Proof.
  intros H.
  destruct (session_stages _ _ _ _ H)
    as (r0 & s0 & r1 & s1 & r2 & s2 & H0 & H1 & H2 & Hfin).
  pose proof (setup_ingested _ _ _ _ H0) as I0. simpl in I0.
  assert (I1 : exists k,
             ingested (log s1) = flat_map (chunk_of W) (firstn k inbox) /\
             (r1 = Blocked -> k = List.length inbox)).
  { destruct r0 as [[]|e|].
    - destruct (loop_ingested _ _ _ _ H1) as (k & Hk & Hb).
      exists k. rewrite Hk, I0. auto.
    - inversion H1; subst. exists 0. rewrite I0. split; [reflexivity|discriminate].
    - exfalso. pose proof (never_blocks_setup W model (initial W)) as Hn.
      rewrite H0 in Hn. apply Hn. reflexivity. }
  destruct I1 as (k & Hk & Hb).
  assert (I2 : ingested (log s2) = ingested (log s1) /\ (r2 = Blocked -> r1 = Blocked)).
  { destruct r1 as [[]|e|]; try (inversion H2; subst; auto; fail).
    destruct (on_exception W e) as [h|] eqn:Hh.
    - split; [eapply on_exception_ingested; eauto|].
      intros ->. exfalso.
      pose proof (on_exception_not_blocked e h s1 Hh) as Hn.
      rewrite H2 in Hn. apply Hn. reflexivity.
    - inversion H2; subst. split; [reflexivity|discriminate]. }
  destruct I2 as [I2 Hb2]. exists k.
  destruct Hfin as [(Hr2 & -> & ->)|(Hn2 & -> & Ht)].
  - rewrite I2. auto.
  - rewrite (teardown_ingested _ _ Ht), I2. split; [exact Hk|].
    intros Hr. contradiction.
Qed.

(** *** What the client is sent *)

Ltac settle_events :=
  rewrite ?events_app; simpl; rewrite ?app_nil_r;
  first
    [ exists []; split; [symmetry; apply app_nil_r | constructor]
    | eexists; split;
      [ first [reflexivity | rewrite <- app_assoc; reflexivity]
      | repeat (constructor; try assumption) ] ].

Lemma iteration_events m s r s' :
  iteration W m s = (r, s') ->
  exists ext,
    events (log s') = events (log s) ++ ext /\ Forall loop_event ext.
Proof.
  unfold_turn. intros H.
  destruct m as [[msg|data]|e]; simpl in H;
    repeat (split_match_in H; subst; simpl in H; try discriminate);
    injection H as Hr Hs; subst r s'; simpl; settle_events.
Qed.

Lemma loop_events inbox s r s' :
  loop W inbox s = (r, s') ->
  exists ext,
    events (log s') = events (log s) ++ ext /\ Forall loop_event ext.
Proof.
  revert s. induction inbox as [|m rest IH]; intros s; simpl.
  - intros H; inversion H; subst. exists []. rewrite app_nil_r. auto.
  - unfold bind. destruct (iteration W m s) as [c s1] eqn:Hi.
    destruct (iteration_events _ _ _ _ Hi) as (ext1 & He1 & Hf1).
    destruct c as [[|]|e|]; intros H;
      try (inversion H; subst; exists ext1; auto; fail).
    destruct (IH _ H) as (ext2 & He2 & Hf2).
    exists (ext1 ++ ext2). rewrite He2, He1, app_assoc.
    split; [reflexivity | apply Forall_app; auto].
Qed.

Lemma setup_events model s r s' :
  setup W model s = (r, s') ->
  events (log s') = events (log s) \/
  events (log s') = events (log s) ++ [ready_event (model_sample_rate W model)].
Proof.
  unfold setup, bind, call_transcribe_stream, call_enter, bind, method, tell,
    record, send_json.
  intros H.
  repeat (split_match_in H; simpl in H; try discriminate);
    injection H as Hr Hs; subst r s'; simpl;
    rewrite ?events_app; simpl; rewrite ?app_nil_r; auto.
Qed.

Lemma on_exception_events e k s r s' :
  on_exception W e = Some k -> k s = (r, s') ->
  events (log s') = events (log s) \/
  events (log s') = events (log s) ++ [error_event (str_exn e)].
Proof.
  destruct e; simpl; intros Hk; inversion Hk; subst; unfold send_json;
    destruct (send_result W (sends s)); intros H; inversion H; subst; simpl;
    rewrite ?events_app; simpl; auto.
Qed.

(** Every event of a session with a model is the ready event or an event
    of the loop. *)
Lemma session_events model inbox r s :
  session W (Some model) inbox = (r, s) ->
  Forall (handler_event (model_sample_rate W model)) (events (log s)).
Proof.
  intros H.
  destruct (session_stages _ _ _ _ H)
    as (r0 & s0 & r1 & s1 & r2 & s2 & H0 & H1 & H2 & Hfin).
  set (ok := handler_event (model_sample_rate W model)).
  assert (Hloop : forall l, Forall loop_event l -> Forall ok l).
  { intros l Hl. eapply Forall_impl; [|exact Hl]. intros ev Hev. right; exact Hev. }
  assert (E0 : Forall ok (events (log s0))).
  { destruct (setup_events _ _ _ _ H0) as [E|E]; rewrite E; simpl;
      repeat constructor. }
  assert (E1 : Forall ok (events (log s1))).
  { destruct r0 as [[]|e|]; try (inversion H1; subst; exact E0).
    destruct (loop_events _ _ _ _ H1) as (ext & He & Hf).
    rewrite He. apply Forall_app; auto. }
  assert (E2 : Forall ok (events (log s2))).
  { destruct r1 as [[]|e|]; try (inversion H2; subst; exact E1).
    destruct (on_exception W e) as [k|] eqn:Hk; [|inversion H2; subst; exact E1].
    destruct (on_exception_events _ _ _ _ _ Hk H2) as [E|E]; rewrite E; auto.
    apply Forall_app; split; [exact E1|].
    constructor; [right; constructor | constructor]. }
  destruct Hfin as [(_ & _ & ->)|(_ & _ & Ht)]; [exact E2|].
  rewrite (teardown_events W _ _ Ht). exact E2.
Qed.

(** X4.  Every event a session with a model sends is one of the four
    wire events: the ready event with the model's sample rate, a
    transcription event, an error event or the done event. *)
Theorem every_event_is_a_wire_event model inbox r s ev :
  session W (Some model) inbox = (r, s) ->
  In ev (events (log s)) ->
  ev = ready_event (model_sample_rate W model) \/
  (exists text final, ev = transcription_event text final) \/
  (exists message, ev = error_event message) \/
  ev = done_event.
Proof.
  intros H Hin. pose proof (session_events _ _ _ _ H) as Hf.
  rewrite Forall_forall in Hf. destruct (Hf _ Hin) as [Hr|Hl]; [auto|].
  destruct Hl; eauto 6.
Qed.

(** X5.  The text of every transcription event of a session is stripped
    of surrounding white space, and that of a partial event is not
    empty. *)
Theorem transcription_text_is_stripped model inbox r s ev :
  session W (Some model) inbox = (r, s) ->
  In ev (events (log s)) ->
  is_transcription ev = true ->
  exists text final,
    ev = transcription_event text final /\
    strip text = text /\
    (final = false -> text <> "").
Proof.
  intros H Hin Ht. pose proof (session_events _ _ _ _ H) as Hf.
  rewrite Forall_forall in Hf. destruct (Hf _ Hin) as [Hr|Hl].
  - subst ev. discriminate Ht.
  - destruct Hl as [t Htt|t|msg|]; try discriminate Ht.
    + exists (strip t), false. split; [reflexivity|].
      split; [apply strip_idempotent|]. intros _. apply truthy_nonempty; exact Htt.
    + exists (strip t), true. split; [reflexivity|].
      split; [apply strip_idempotent | discriminate].
Qed.

(** *** The done event *)

Lemma nodone_snoc evs ev : nodone evs -> ev <> done_event -> nodone (evs ++ [ev]).
Proof.
  intros H He. apply Forall_app. split; [exact H|]. constructor; auto.
Qed.

Ltac settle_done Hnd :=
  rewrite ?events_app; simpl; rewrite ?app_nil_r;
  first
    [ left; solve [repeat (apply nodone_snoc; [|discriminate]); exact Hnd]
    | right; split; [reflexivity|]; eexists; split; [reflexivity|];
      solve [repeat (apply nodone_snoc; [|discriminate]); exact Hnd] ].

(** One turn of the loop sends no done event, or sends it last and leaves
    the loop normally. *)
Lemma iteration_done m s r s' :
  nodone (events (log s)) ->
  iteration W m s = (r, s') ->
  nodone (events (log s')) \/
  (r = Val Break /\
   exists pre, events (log s') = pre ++ [done_event] /\ nodone pre).
Proof.
  intros Hnd. unfold_turn. intros H.
  destruct m as [[msg|data]|e]; simpl in H;
    repeat (split_match_in H; subst; simpl in H; try discriminate);
    injection H as Hr Hs; subst r s'; simpl; settle_done Hnd.
Qed.

Lemma loop_done inbox s r s' :
  nodone (events (log s)) ->
  loop W inbox s = (r, s') ->
  nodone (events (log s')) \/
  (r = Val tt /\
   exists pre, events (log s') = pre ++ [done_event] /\ nodone pre).
Proof.
  revert s. induction inbox as [|m rest IH]; intros s Hnd; simpl.
  - intros H; inversion H; subst. left; exact Hnd.
  - unfold bind. destruct (iteration W m s) as [c s1] eqn:Hi.
    destruct (iteration_done _ _ _ _ Hnd Hi) as [H1|[-> H1]].
    + destruct c as [[|]|e|]; intros H; try (inversion H; subst; left; exact H1).
      eapply IH; eauto.
    + intros H; inversion H; subst. right; auto.
Qed.

Lemma nodone_not_in evs : nodone evs -> ~ In done_event evs.
Proof.
  intros H Hin. unfold nodone in H. rewrite Forall_forall in H.
  apply (H _ Hin). reflexivity.
Qed.

(** X6.  The done event ends the conversation: a session in which it was
    sent has returned normally, has sent it once, and has sent nothing
    after it.  This holds whatever the transport does. *)
Theorem done_is_the_last_event stt_model inbox r s :
  session W stt_model inbox = (r, s) ->
  In done_event (events (log s)) ->
  r = Val tt /\
  exists pre, events (log s) = pre ++ [done_event] /\ ~ In done_event pre.
Proof.
  intros H Hin. destruct stt_model as [model|].
  - destruct (session_stages _ _ _ _ H)
      as (r0 & s0 & r1 & s1 & r2 & s2 & H0 & H1 & H2 & Hfin).
    assert (D0 : nodone (events (log s0))).
    { destruct (setup_events _ _ _ _ H0) as [E|E]; rewrite E; simpl;
        repeat constructor; discriminate. }
    assert (D1 : nodone (events (log s1)) \/
                 (r1 = Val tt /\
                  exists pre, events (log s1) = pre ++ [done_event] /\ nodone pre)).
    { destruct r0 as [[]|e|]; try (inversion H1; subst; left; exact D0).
      eapply loop_done; eauto. }
    assert (D2 : nodone (events (log s2)) \/
                 (r2 = Val tt /\
                  exists pre, events (log s2) = pre ++ [done_event] /\ nodone pre)).
    { destruct D1 as [D1|[-> D1]]; [|inversion H2; subst; right; auto].
      left. destruct r1 as [[]|e|]; try (inversion H2; subst; exact D1).
      destruct (on_exception W e) as [k|] eqn:Hk; [|inversion H2; subst; exact D1].
      destruct (on_exception_events _ _ _ _ _ Hk H2) as [E|E]; rewrite E; auto.
      apply nodone_snoc; [exact D1 | discriminate]. }
    assert (Es : events (log s) = events (log s2) /\ (r2 = Val tt -> r = Val tt)).
    { destruct Hfin as [(Hb & _ & ->)|(_ & -> & Ht)].
      - split; [reflexivity|]. intros Hv. rewrite Hv in Hb. discriminate.
      - split; [apply (teardown_events W _ _ Ht) | auto]. }
    destruct Es as [Es Hr]. rewrite Es in *.
    destruct D2 as [D2|[Hr2 (pre & Hp & Hn)]].
    + exfalso. exact (nodone_not_in _ D2 Hin).
    + split; [auto|]. exists pre. split; [exact Hp | apply nodone_not_in; exact Hn].
  - exfalso. revert H Hin.
    unfold session, realtime_transcription, bind, send_json, websocket_close,
      bind, tell, record, ret, raise. simpl.
    destruct (send_result W 0); simpl.
    + intros H; inversion H; subst; simpl. intros [].
    + destruct (close_result W); intros H; inversion H; subst; simpl;
        intros [Hc|[]]; discriminate.
Qed.

(** *** Failures of the set-up *)

(** X7.  When the engine refuses to create a transcriber, the session
    ends at once: the error is sent as an error event, the socket is
    closed, nothing is released (there is nothing to release), and no
    message of the client is read. *)
Theorem engine_refusal_ends_the_session model inbox msg :
  transcribe_stream W model context_size false = inl msg ->
  send_result W 0 = None ->
  exists s,
    session W (Some model) inbox = (Val tt, s) /\
    log s = [Sent (error_event msg); Closed] /\
    transcriber s = None.
Proof.
  intros Hts Hs.
  unfold session, realtime_transcription, try_finally, try_except, bind,
    call_transcribe_stream. simpl. rewrite Hts. simpl.
  unfold send_json. simpl. rewrite Hs. simpl.
  unfold teardown, if_transcriber, bind, try_except, websocket_close, bind, tell,
    record, ret, raise. simpl.
  destruct (close_result W); simpl; eexists; repeat split.
Qed.

(** X8.  When [__enter__] of the new transcriber raises, the error is
    sent as an error event and [__exit__] is called all the same, once,
    before the socket is closed. *)
Theorem failed_enter_is_still_exited model inbox e0 e1 msg :
  transcribe_stream W model context_size false = inr e0 ->
  enter W e0 = (e1, Some msg) ->
  send_result W 0 = None ->
  exists s,
    session W (Some model) inbox = (Val tt, s) /\
    log s = [Sent (error_event msg); Released; Closed] /\
    ~ acquired (log s).
Proof.
  intros Hts He Hs.
  unfold session, realtime_transcription, try_finally, try_except, bind,
    call_transcribe_stream, call_enter, bind, method. simpl.
  rewrite Hts. simpl. rewrite He. simpl.
  unfold send_json. simpl. rewrite Hs. simpl.
  unfold teardown, if_transcriber, bind, try_except, call_exit, bind, tell, method,
    websocket_close, bind, tell, record, ret, raise. simpl.
  destruct (exit_ W e1) as [e2 [m2|]]; simpl;
    destruct (close_result W); simpl; eexists;
    (split; [reflexivity|]); simpl; (split; [reflexivity|]);
    intros [Hc|[Hc|[Hc|[]]]]; discriminate.
Qed.

(** *** Frames the handler cannot read, and cancellation *)

Lemma unreadable_raises m msg s :
  unreadable m msg -> body W m s = (Raise (Exception msg), s).
Proof.
  intros [msg'|msg'|data Hd]; try reflexivity.
  unfold body, bind. simpl.
  destruct data; try reflexivity. exfalso. eapply Hd. reflexivity.
Qed.

(** X9.  A frame that cannot be read (the call of [receive_text] raises
    an ordinary error, or the text is no JSON, or it is JSON but no
    object) is answered with one error event carrying the text of the
    error, when the transport delivers it; the transcriber is left as it
    was and the session waits for the next message. *)
Theorem unreadable_frame_is_reported model inbox1 m msg s1 :
  session W (Some model) inbox1 = (Blocked, s1) ->
  unreadable m msg ->
  send_result W (sends s1) = None ->
  exists s2,
    log s2 = log s1 ++ [Sent (error_event msg)] /\
    transcriber s2 = transcriber s1 /\
    session W (Some model) (inbox1 ++ [m]) = (Blocked, s2) /\
    forall inbox2,
      session W (Some model) (inbox1 ++ m :: inbox2) = resume W inbox2 s2.
Proof.
  intros H Hu Hs.
  pose proof (iteration_raises W _ _ _ _ Hs (unreadable_raises m msg s1 Hu)) as Hi.
  eexists. split; [|split; [|split]].
  3: { rewrite (session_app W _ _ _ _ H), (resume_continue W _ _ _ _ Hi).
       reflexivity. }
  - reflexivity.
  - reflexivity.
  - intros inbox2.
    rewrite (session_app W _ _ _ _ H), (resume_continue W _ _ _ _ Hi).
    reflexivity.
Qed.

(** X10.  When the task is cancelled while the session waits for a
    message, the cancellation passes through both [except] clauses: no
    error event is sent, the transcriber is released, the socket is
    closed, and the handler raises the cancellation. *)
Theorem cancellation_passes_through model inbox1 inbox2 s1 :
  session W (Some model) inbox1 = (Blocked, s1) ->
  exists s2,
    session W (Some model) (inbox1 ++ RecvRaises CancelledError :: inbox2)
    = (Raise CancelledError, s2) /\
    log s2 = log s1 ++ [Released; Closed] /\
    sends s2 = sends s1.
Proof.
  intros H. rewrite (session_app W _ _ _ _ H).
  destruct (session_blocked_bound W _ _ _ H) as (e & He).
  unfold resume, try_finally, try_except. simpl. unfold bind. simpl.
  destruct (teardown_spec W s1) as (s2 & Ht & Hs & Hl). rewrite Ht.
  exists s2. rewrite He in Hl. auto.
Qed.

(** *** How a session ends *)

Lemma iteration_escape m s r s' :
  reliable (send_result W) ->
  iteration W m s = (r, s') ->
  (exists c, r = Val c) \/ (r = Raise CancelledError /\ m = RecvRaises CancelledError).
Proof.
  intros Hrel. unfold reliable in Hrel. unfold_turn. intros H.
  destruct m as [[msg|data]|e]; simpl in H;
    repeat first
      [ progress (rewrite ?Hrel in H; simpl in H)
      | split_match_in H; subst; simpl in H; try discriminate ];
    injection H as Hr Hs; subst r s'; eauto.
Qed.

Lemma loop_escape inbox s r s' :
  reliable (send_result W) ->
  loop W inbox s = (r, s') ->
  r = Val tt \/ r = Blocked \/
  (r = Raise CancelledError /\ In (RecvRaises CancelledError) inbox).
Proof.
  intros Hrel. revert s. induction inbox as [|m rest IH]; intros s; simpl.
  - intros H; inversion H; subst. auto.
  - unfold bind. destruct (iteration W m s) as [c s1] eqn:Hi.
    destruct (iteration_escape _ _ _ _ Hrel Hi) as [[c' ->]|[-> ->]].
    + destruct c'; intros H.
      * destruct (IH _ H) as [Hr|[Hr|[Hr Hin]]]; auto.
      * inversion H; subst. auto.
    + intros H; inversion H; subst. right; right. auto.
Qed.

(** X11.  Over a transport that delivers its events, no error escapes a
    call of the handler with a model: it returns, or is still waiting, or
    raises the cancellation that [receive_text] raised. *)
Theorem only_cancellation_escapes model inbox r s :
  reliable (send_result W) ->
  session W (Some model) inbox = (r, s) ->
  r = Val tt \/ r = Blocked \/
  (r = Raise CancelledError /\ In (RecvRaises CancelledError) inbox).
Proof.
  intros Hrel H.
  destruct (session_stages _ _ _ _ H)
    as (r0 & s0 & r1 & s1 & r2 & s2 & H0 & H1 & H2 & Hfin).
  pose proof Hrel as Hsend. unfold reliable in Hsend.
  assert (R0 : r0 = Val tt \/ exists msg, r0 = Raise (Exception msg)).
  { revert H0.
    unfold setup, bind, call_transcribe_stream, call_enter, bind, method, tell,
      record, send_json. simpl. intros H0.
    repeat first
      [ progress (rewrite ?Hsend in H0; simpl in H0)
      | split_match_in H0; simpl in H0; try discriminate ];
      injection H0 as Hr Hs; subst r0 s0; eauto. }
  assert (R1 : r1 = Val tt \/ r1 = Blocked \/ (exists msg, r1 = Raise (Exception msg)) \/
               (r1 = Raise CancelledError /\ In (RecvRaises CancelledError) inbox)).
  { destruct R0 as [->|[msg ->]].
    - destruct (loop_escape _ _ _ _ Hrel H1) as [Hr|[Hr|Hr]]; auto.
    - inversion H1; subst. right; right; left. eauto. }
  assert (R2 : r2 = Val tt \/ r2 = Blocked \/
               (r2 = Raise CancelledError /\ In (RecvRaises CancelledError) inbox)).
  { destruct R1 as [->|[->|[[msg ->]|[-> Hin]]]];
      simpl in H2; unfold send_json in H2; rewrite ?Hsend in H2;
      inversion H2; subst; auto. }
  destruct Hfin as [(_ & -> & _)|(_ & -> & _)]; auto.
Qed.

Ltac failed_then_delivered Hst :=
  match goal with
  | H1 : send_result _ ?k = Some _, H2 : send_result _ (S ?k) = None |- _ =>
      exfalso; apply (Hst k); [rewrite H1; discriminate | exact H2]
  end.

Lemma iteration_leaves m s r s' :
  failures_persist (send_result W) ->
  bound W s ->
  leaves_loop m ->
  iteration W m s = (r, s') ->
  r <> Val Continue.
Proof.
  intros Hst Hb [(data & -> & Hty)|[(code & ->)| ->]].
  - destruct (get_type_object _ _ Hty) as (fields & -> & Ha).
    unfold bound in Hb. unfold_turn. simpl. rewrite Ha. simpl.
    destruct (transcriber s) as [e|] eqn:Ht; [|congruence]. simpl.
    intros H.
    repeat (split_match_in H; subst; simpl in H;
            try discriminate; try failed_then_delivered Hst);
      injection H as Hr Hs; subst r s'; discriminate.
  - unfold_turn. simpl. intros H; inversion H; subst. discriminate.
  - unfold_turn. simpl. intros H; inversion H; subst. discriminate.
Qed.

Lemma loop_leaves inbox s r s' :
  failures_persist (send_result W) ->
  bound W s ->
  Exists leaves_loop inbox ->
  loop W inbox s = (r, s') ->
  r <> Blocked.
Proof.
  intros Hst. revert s. induction inbox as [|m rest IH]; intros s Hb Hex.
  - inversion Hex.
  - simpl. unfold bind. destruct (iteration W m s) as [c s1] eqn:Hi.
    pose proof (preserves_iteration W (bound W) (stable_bound W) m s Hb) as Hb1.
    rewrite Hi in Hb1. simpl in Hb1.
    destruct c as [[|]|e|]; intros H; try (inversion H; subst; discriminate).
    + inversion Hex as [? ? Hm|? ? Hr]; subst.
      * exfalso. exact (iteration_leaves _ _ _ _ Hst Hb Hm Hi eq_refl).
      * eapply IH; eauto.
    + pose proof (never_blocks_iteration W m s) as Hn. rewrite Hi in Hn.
      exfalso. apply Hn. reflexivity.
Qed.

(** X12.  On a connection that stays failed once it has failed, a client
    can always end its session: after an [end] message, a disconnect or a
    cancellation the call of the handler is over, whatever came before
    and whatever the engine does. *)
Theorem end_message_ends_the_session model inbox r s :
  failures_persist (send_result W) ->
  session W (Some model) inbox = (r, s) ->
  Exists leaves_loop inbox ->
  terminated r.
Proof.
  intros Hst H Hex Hr. subst r.
  destruct (session_blocked W _ _ _ H) as (s0 & Hs & Hl).
  exact (loop_leaves _ _ _ _ Hst (setup_bound W _ _ _ Hs) Hex Hl eq_refl).
Qed.

End Coverage.

(** *** The one-shot endpoint *)

Section OneShotProperties.

Variable Model : Type.
Variable O : OneShot Model.

Ltac run_body :=
  unfold transcribe_audio, transcribe_body, fbind, called, check, fret; simpl.

Lemma or_en_nonempty language : or_en language <> "".
Proof.
  destruct language as [[|c l]|]; simpl; discriminate.
Qed.

(** X13.  The temporary file is not cleaned up on failure: when the
    upload has been read and the file created, and then the write,
    [sf.info] or the engine raises, the endpoint answers 500 with the
    text of that error and [os.unlink] is never called. *)
Theorem temp_file_is_left_behind m file model language response_format
  temperature timestamp_granularities d p msg :
  read file = inr d ->
  named_temporary_file O = inr p ->
  temp_write O p d = Some msg \/
  (temp_write O p d = None /\ sf_info O p = inl msg) \/
  (temp_write O p d = None /\ (exists dur, sf_info O p = inr dur) /\
   transcribe O m p = inl msg) ->
  exists calls,
    transcribe_audio O (Some m) file model language response_format
      temperature timestamp_granularities
    = (JSONResponse 500 (error_body msg "transcription_error"), calls) /\
    In NamedTemporaryFile calls /\
    forall q, ~ In (Unlink q) calls.
Proof.
  intros Hr Hn Hfail. run_body. rewrite Hr. simpl. rewrite Hn. simpl.
  destruct Hfail as [Hw|[[Hw Hi]|(Hw & [dur Hi] & Ht)]].
  - rewrite Hw. simpl. eexists. split; [reflexivity|]. split; [simpl; auto|].
    intros q [Hc|[Hc|[Hc|[]]]]; discriminate.
  - rewrite Hw. simpl. rewrite Hi. simpl. eexists. split; [reflexivity|].
    split; [simpl; auto|].
    intros q [Hc|[Hc|[Hc|[Hc|[]]]]]; discriminate.
  - rewrite Hw. simpl. rewrite Hi. simpl. rewrite Ht. simpl. eexists.
    split; [reflexivity|]. split; [simpl; auto|].
    intros q [Hc|[Hc|[Hc|[Hc|[Hc|[]]]]]]; discriminate.
Qed.

(** X14.  A 200 answer comes only after the whole pipeline: the upload was
    read, written to a temporary file, measured, transcribed, and the file
    removed, in that order and each once.  Its text is the stripped text
    of the engine, and its language is the one asked for, or "en", never
    empty. *)
Theorem answer_follows_cleanup stt_model file model language response_format
  temperature timestamp_granularities body calls :
  transcribe_audio O stt_model file model language response_format
    temperature timestamp_granularities = (Returned body, calls) ->
  exists m p text dur,
    stt_model = Some m /\
    transcribe O m p = inr text /\
    os_unlink O p = None /\
    calls = [FileRead; NamedTemporaryFile; TempWrite p; SfInfo p; Transcribe p;
             Unlink p] /\
    body = JObj [("text", JStr (strip text));
                 ("task", JStr "transcribe");
                 ("language", JStr (or_en language));
                 ("duration", JFloat dur)] /\
    strip (strip text) = strip text /\
    or_en language <> "".
Proof.
  destruct stt_model as [m|]; [|discriminate]. run_body.
  destruct (read file) as [e|d]; simpl; [discriminate|].
  destruct (named_temporary_file O) as [e|p]; simpl; [discriminate|].
  destruct (temp_write O p d) as [e|]; simpl; [discriminate|].
  destruct (sf_info O p) as [e|dur]; simpl; [discriminate|].
  destruct (transcribe O m p) as [e|text] eqn:Ht; simpl; [discriminate|].
  destruct (os_unlink O p) as [e|] eqn:Hu; simpl; [discriminate|].
  intros H. inversion H; subst.
  exists m, p, text, dur.
  repeat split; auto using strip_idempotent, or_en_nonempty.
Qed.

(** X15.  A transcription that succeeded is lost when the clean-up fails:
    if [os.unlink] raises, the endpoint answers 500 with the text of that
    error, after the engine has transcribed the file. *)
Theorem failed_cleanup_loses_the_answer m file model language response_format
  temperature timestamp_granularities d p dur text msg :
  read file = inr d ->
  named_temporary_file O = inr p ->
  temp_write O p d = None ->
  sf_info O p = inr dur ->
  transcribe O m p = inr text ->
  os_unlink O p = Some msg ->
  transcribe_audio O (Some m) file model language response_format
    temperature timestamp_granularities
  = (JSONResponse 500 (error_body msg "transcription_error"),
     [FileRead; NamedTemporaryFile; TempWrite p; SfInfo p; Transcribe p; Unlink p]).
Proof.
  intros Hr Hn Hw Hi Ht Hu. run_body.
  rewrite Hr. simpl. rewrite Hn. simpl. rewrite Hw. simpl. rewrite Hi. simpl.
  rewrite Ht. simpl. rewrite Hu. reflexivity.
Qed.

(** X16.  The form fields [model], [response_format], [temperature] and
    [timestamp_granularities] change nothing, and [language] only the
    language the answer names: two requests with the same upload whose
    languages give the same answer language get the same answer, after the
    same calls. *)
Theorem request_options_are_ignored stt_model file
  model model' language language' response_format response_format'
  temperature temperature' timestamp_granularities timestamp_granularities' :
  or_en language = or_en language' ->
  transcribe_audio O stt_model file model language response_format
    temperature timestamp_granularities =
  transcribe_audio O stt_model file model' language' response_format'
    temperature' timestamp_granularities'.
Proof.
  intros Hl. destruct stt_model as [m|]; [|reflexivity].
  run_body. rewrite Hl. reflexivity.
Qed.

End OneShotProperties.

(** *** A model that does not load *)

(** X17.  When the model cannot be loaded at start-up the server runs
    without it: the health check still says healthy, with
    [model_loaded] false; the one-shot endpoint answers 500 "Model not
    loaded" without touching the upload, the file system or the engine;
    and a real-time session gets that error as its only event. *)
Theorem failed_load_degrades_every_endpoint (W : Env) (O : OneShot (Model W))
  (from_pretrained : string -> string + Model W) err
  file model language response_format temperature timestamp_granularities inbox :
  from_pretrained MODEL_PATH = inl err ->
  send_result W 0 = None ->
  let stt_model := load_model from_pretrained in
  get "status" (health stt_model) = Some (JStr "healthy") /\
  get "model_loaded" (health stt_model) = Some (JBool false) /\
  transcribe_audio O stt_model file model language response_format
    temperature timestamp_granularities
  = (JSONResponse 500 (error_body "Model not loaded" "server_error"), []) /\
  log (snd (session W stt_model inbox))
  = [Sent (error_event "Model not loaded"); Closed].
Proof.
  intros Hl Hs. unfold load_model. rewrite Hl. simpl.
  repeat (split; [reflexivity|]).
  unfold session, realtime_transcription, bind, send_json, websocket_close,
    bind, tell, record, ret, raise. simpl. rewrite Hs. simpl.
  destruct (close_result W); reflexivity.
Qed.

(** *** The further theorems at work on the test doubles *)

Lemma waiting_session_is_live_witness :
  let s := snd (session Double.W0 (Some [inr "hi"]) [Double.audio Double.one_sample]) in
  (exists e, transcriber s = Some e) /\
  acquired (log s) /\
  releases (log s) = 0 /\
  closes (log s) = 0.
Proof.
  cbv zeta.
  apply (waiting_session_is_live Double.W0 [inr "hi"] [Double.audio Double.one_sample]).
  reflexivity.
Defined.

Lemma teardown_comes_last_witness :
  let rs := session Double.W0 (Some [inr "hi"])
              [Double.audio Double.one_sample; Double.end_] in
  terminated (fst rs) /\
  closes (log (snd rs)) = 1 /\
  exists pre tail,
    log (snd rs) = pre ++ tail /\
    (tail = [Closed] \/ tail = [Released; Closed]) /\
    releases pre = 0 /\
    closes pre = 0.
Proof.
  cbv zeta.
  assert (Ht : terminated
                 (fst (session Double.W0 (Some [inr "hi"])
                         [Double.audio Double.one_sample; Double.end_])))
    by (vm_compute; discriminate).
  split; [exact Ht|].
  exact (teardown_comes_last Double.W0 [inr "hi"]
           [Double.audio Double.one_sample; Double.end_] _ _
           (surjective_pairing _) Ht).
Defined.

Lemma chunks_are_ingested_in_order_witness :
  let inbox := [Double.audio Double.one_sample; Double.audio Double.two_bytes;
                Text (inr (JArr [])); Double.audio Double.one_sample;
                Double.end_; Double.audio Double.one_sample] in
  let rs := session Double.W0 (Some [inr "hi"]) inbox in
  ingested (log (snd rs)) = [[1065353216%N]; [1065353216%N]] /\
  exists k,
    ingested (log (snd rs)) = flat_map (chunk_of Double.W0) (firstn k inbox) /\
    (fst rs = Blocked -> k = List.length inbox).
Proof.
  cbv zeta. split; [reflexivity|].
  exact (chunks_are_ingested_in_order Double.W0 [inr "hi"] _ _ _
           (surjective_pairing _)).
Defined.

Lemma every_event_is_a_wire_event_witness :
  let ev := transcription_event "hi" false in
  ev = ready_event 16000 \/
  (exists text final, ev = transcription_event text final) \/
  (exists message, ev = error_event message) \/
  ev = done_event.
Proof.
  cbv zeta.
  refine (every_event_is_a_wire_event Double.W0 [inr " hi "]
            [Double.audio Double.one_sample; Double.end_] _ _ _
            (surjective_pairing _) _).
  vm_compute. auto.
Defined.

Lemma transcription_text_is_stripped_witness :
  let rs := session Double.W0 (Some [inr spaced_text])
              [Double.audio Double.one_sample; Double.end_] in
  let ev := transcription_event "hi there" false in
  In ev (events (log (snd rs))) /\
  is_transcription ev = true /\
  exists text final,
    ev = transcription_event text final /\
    strip text = text /\
    (final = false -> text <> "").
Proof.
  cbv zeta.
  assert (Hin : In (transcription_event "hi there" false)
                  (events (log (snd (session Double.W0 (Some [inr spaced_text])
                                       [Double.audio Double.one_sample; Double.end_]))))).
  { vm_compute. auto. }
  split; [exact Hin|]. split; [reflexivity|].
  exact (transcription_text_is_stripped Double.W0 [inr spaced_text]
           [Double.audio Double.one_sample; Double.end_] _ _ _
           (surjective_pairing _) Hin eq_refl).
Defined.

Lemma done_is_the_last_event_witness :
  let rs := session Double.W0 (Some [inr "hi"])
              [Double.audio Double.one_sample; Double.end_;
               Double.audio Double.one_sample] in
  fst rs = Val tt /\
  exists pre, events (log (snd rs)) = pre ++ [done_event] /\ ~ In done_event pre.
Proof.
  cbv zeta.
  refine (done_is_the_last_event Double.W0 (Some [inr "hi"]) _ _ _
            (surjective_pairing _) _).
  vm_compute. auto.
Defined.

Lemma engine_refusal_ends_the_session_witness :
  exists s,
    session DoubleSetup.refusing (Some [inr "hi"])
      [Double.audio Double.one_sample; Double.end_] = (Val tt, s) /\
    log s = [Sent (error_event "context allocation failed"); Closed] /\
    transcriber s = None.
Proof.
  apply (engine_refusal_ends_the_session DoubleSetup.refusing [inr "hi"]
           [Double.audio Double.one_sample; Double.end_]
           "context allocation failed"); reflexivity.
Defined.

Lemma failed_enter_is_still_exited_witness :
  exists s,
    session DoubleSetup.unenterable (Some [inr "hi"])
      [Double.audio Double.one_sample; Double.end_] = (Val tt, s) /\
    log s = [Sent (error_event "cannot enter"); Released; Closed] /\
    ~ acquired (log s).
Proof.
  apply (failed_enter_is_still_exited DoubleSetup.unenterable [inr "hi"]
           [Double.audio Double.one_sample; Double.end_]
           (Double.mkE [inr "hi"] "") (Double.mkE [inr "hi"] "") "cannot enter");
    reflexivity.
Defined.

Lemma unreadable_frame_is_reported_witness :
  let s1 := snd (session Double.W0 (Some [inr "hi"]) [Double.audio Double.one_sample]) in
  let m := Text (inl "Expecting value: line 1 column 1 (char 0)") in
  exists s2,
    log s2 = log s1 ++
      [Sent (error_event "Expecting value: line 1 column 1 (char 0)")] /\
    transcriber s2 = transcriber s1 /\
    session Double.W0 (Some [inr "hi"]) ([Double.audio Double.one_sample] ++ [m])
    = (Blocked, s2) /\
    forall inbox2,
      session Double.W0 (Some [inr "hi"])
        ([Double.audio Double.one_sample] ++ m :: inbox2) =
      resume Double.W0 inbox2 s2.
Proof.
  cbv zeta.
  apply (unreadable_frame_is_reported Double.W0 [inr "hi"]
           [Double.audio Double.one_sample]);
    [reflexivity | constructor | reflexivity].
Defined.

Lemma cancellation_passes_through_witness :
  let s1 := snd (session Double.W0 (Some [inr "hi"]) [Double.audio Double.one_sample]) in
  exists s2,
    session Double.W0 (Some [inr "hi"])
      ([Double.audio Double.one_sample] ++ RecvRaises CancelledError :: [Double.end_])
    = (Raise CancelledError, s2) /\
    log s2 = log s1 ++ [Released; Closed] /\
    sends s2 = sends s1.
Proof.
  cbv zeta.
  apply (cancellation_passes_through Double.W0 [inr "hi"]
           [Double.audio Double.one_sample] [Double.end_]).
  reflexivity.
Defined.

Lemma only_cancellation_escapes_witness :
  let inbox := [Double.audio Double.two_bytes; Text (inl "Extra data");
                RecvRaises (Exception "not a text frame");
                Double.audio Double.one_sample] in
  let r := fst (session Double.W0 (Some [inl "engine error"]) inbox) in
  r = Val tt \/ r = Blocked \/
  (r = Raise CancelledError /\ In (RecvRaises CancelledError) inbox).
Proof.
  cbv zeta.
  exact (only_cancellation_escapes Double.W0 [inl "engine error"] _ _ _
           always_delivers_reliable (surjective_pairing _)).
Defined.

Lemma end_message_ends_the_session_witness :
  terminated
    (fst (session (Double.env (Double.drops_at 2)) (Some [inr "hi"])
            [Double.audio Double.one_sample; Double.end_])).
Proof.
  refine (end_message_ends_the_session (Double.env (Double.drops_at 2)) [inr "hi"]
            [Double.audio Double.one_sample; Double.end_] _ _
            (drops_at_persist 2) (surjective_pairing _) _).
  apply Exists_cons_tl, Exists_cons_hd. left.
  exists Double.end_message. split; reflexivity.
Defined.

Lemma temp_file_is_left_behind_witness :
  exists calls,
    DoubleOneShot.post (DoubleOneShot.mkFaults false true false false) (Some [])
    = (JSONResponse 500 (error_body "Format not recognised." "transcription_error"),
       calls) /\
    In NamedTemporaryFile calls /\
    forall q, ~ In (Unlink q) calls.
Proof.
  apply (temp_file_is_left_behind Double.Model
           (DoubleOneShot.env (DoubleOneShot.mkFaults false true false false))
           [] DoubleOneShot.upload "parakeet-tdt-0.6b-v3" None "json" 0%Z None
           [82%N; 73%N] "/tmp/tmpab12.wav" "Format not recognised.");
    [reflexivity | reflexivity | right; left; split; reflexivity].
Defined.

Lemma answer_follows_cleanup_witness :
  exists m p text dur,
    Some ([] : Double.Model) = Some m /\
    transcribe (DoubleOneShot.env DoubleOneShot.none) m p = inr text /\
    os_unlink (DoubleOneShot.env DoubleOneShot.none) p = None /\
    snd (DoubleOneShot.post DoubleOneShot.none (Some [])) =
      [FileRead; NamedTemporaryFile; TempWrite p; SfInfo p; Transcribe p; Unlink p] /\
    JObj [("text", JStr "hello"); ("task", JStr "transcribe");
          ("language", JStr "en"); ("duration", JFloat "1.5")] =
      JObj [("text", JStr (strip text));
            ("task", JStr "transcribe");
            ("language", JStr (or_en None));
            ("duration", JFloat dur)] /\
    strip (strip text) = strip text /\
    or_en None <> "".
Proof.
  apply (answer_follows_cleanup Double.Model (DoubleOneShot.env DoubleOneShot.none)
           (Some []) DoubleOneShot.upload "parakeet-tdt-0.6b-v3" None "json" 0%Z None).
  reflexivity.
Defined.

Lemma failed_cleanup_loses_the_answer_witness :
  DoubleOneShot.post (DoubleOneShot.mkFaults false false false true) (Some [])
  = (JSONResponse 500 (error_body "Permission denied" "transcription_error"),
     [FileRead; NamedTemporaryFile; TempWrite "/tmp/tmpab12.wav";
      SfInfo "/tmp/tmpab12.wav"; Transcribe "/tmp/tmpab12.wav";
      Unlink "/tmp/tmpab12.wav"]).
Proof.
  apply (failed_cleanup_loses_the_answer Double.Model
           (DoubleOneShot.env (DoubleOneShot.mkFaults false false false true))
           [] DoubleOneShot.upload "parakeet-tdt-0.6b-v3" None "json" 0%Z None
           [82%N; 73%N] "/tmp/tmpab12.wav" "1.5" " hello " "Permission denied");
    reflexivity.
Defined.

Lemma request_options_are_ignored_witness :
  let O := DoubleOneShot.env DoubleOneShot.none in
  transcribe_audio O (Some []) DoubleOneShot.upload
    "parakeet-tdt-0.6b-v3" None "json" 0%Z None =
  transcribe_audio O (Some []) DoubleOneShot.upload
    "whisper-1" (Some "") "verbose_json" 7%Z (Some ["word"]).
Proof.
  cbv zeta.
  apply (request_options_are_ignored Double.Model
           (DoubleOneShot.env DoubleOneShot.none) (Some []) DoubleOneShot.upload).
  reflexivity.
Defined.

Lemma failed_load_degrades_every_endpoint_witness :
  let stt_model : option (Model Double.W0) :=
    load_model (fun _ => inl "No such file or directory") in
  get "status" (health stt_model) = Some (JStr "healthy") /\
  get "model_loaded" (health stt_model) = Some (JBool false) /\
  transcribe_audio (DoubleOneShot.env DoubleOneShot.none) stt_model
    DoubleOneShot.upload "parakeet-tdt-0.6b-v3" None "json" 0%Z None
  = (JSONResponse 500 (error_body "Model not loaded" "server_error"), []) /\
  log (snd (session Double.W0 stt_model [Double.audio Double.one_sample; Double.end_]))
  = [Sent (error_event "Model not loaded"); Closed].
Proof.
  apply (failed_load_degrades_every_endpoint Double.W0
           (DoubleOneShot.env DoubleOneShot.none)
           (fun _ => inl "No such file or directory") "No such file or directory"
           DoubleOneShot.upload "parakeet-tdt-0.6b-v3" None "json" 0%Z None
           [Double.audio Double.one_sample; Double.end_]);
    reflexivity.
Defined.

(** X18.  Without a model there is no [finally]: if the send of the
    "Model not loaded" event raises, the error escapes the handler and
    [websocket.close()] is not called. *)
Theorem no_model_failed_send_skips_close (W : Env) inbox e :
  send_result W 0 = Some e ->
  session W None inbox = (Raise e, mkState W None 1 []).
Proof.
  intros Hs.
  unfold session, realtime_transcription, bind, send_json. simpl.
  rewrite Hs. reflexivity.
Qed.

Lemma no_model_failed_send_skips_close_witness :
  session (Double.env (Double.drops_at 0)) None [Double.end_]
  = (Raise (WebSocketDisconnect "1006"),
     mkState (Double.env (Double.drops_at 0)) None 1 []).
Proof.
  apply (no_model_failed_send_skips_close (Double.env (Double.drops_at 0))
           [Double.end_] (WebSocketDisconnect "1006")).
  reflexivity.
Defined.
